(** * easyvk: the extension and dispatch engine of the [VK] facade

    A shallow embedding of [class VK] (plugin registry, exception handler
    registry, composer stack) and of [API.checkOnErrors] (the response
    classifier), followed by the properties of the specification that were
    checked against them.

    JavaScript arrays are lists, [Map] and [WeakMap] are [gmap]s, the
    insertion-ordered [Set] of handled exception types is a list, a thrown
    [Error] is the [Throw] completion of a state-and-error monad over the
    facade's fields.  A [gmap] is read by key: the order in which a [Map]
    lists its keys is not modelled, and no statement below depends on it. *)

From stdpp Require Import gmap strings list pretty.

Set Warnings "-register-all".

Open Scope string_scope.
Open Scope list_scope.
Open Scope Z_scope.

(** ** JavaScript values *)

(** The values that flow through plugin options, middleware contexts and
    exception handlers.  Objects (error instances among them) are references:
    [===] on them is identity, which is equality of addresses. *)
Inductive value :=
  | VUndef
  | VNull
  | VBool (b : bool)
  | VNum (n : Z)
  | VStr (s : string)
  | VRef (address : nat).

#[global] Instance value_eq_dec : EqDecision value.
Proof. solve_decision. Defined.

(** ToBoolean: [undefined], [null], [false], [0] and [""] are falsy. *)
Definition truthy (v : value) : bool :=
  match v with
  | VUndef | VNull => false
  | VBool b => b
  | VNum n => negb (n =? 0)
  | VStr s => negb (String.eqb s "")
  | VRef _ => true
  end.

(** [a !== b] *)
Definition strictNe (a b : value) : bool := negb (bool_decide (a = b)).

(** A plain options object, [{ [key: string]: any }]. *)
Abbreviation Options := (gmap string value).

(** [{...a, ...b}]: the keys of [b] override those of [a]. *)
Definition spread (a b : Options) : Options := b ∪ a.

(** A thrown [new Error(message)]. *)
Inductive JsError := Error (message : string).

(** ** Plugins *)

Module Plugin.

(** Modelled from the spec: the [Plugin] class (structures/plugin/plugin) is
    not part of the sources at hand.  A plugin descriptor carries a name, a
    set of required plugin names and an optional name of the plugin it wants
    to be set up before; [requirements] and [setupAfter] may be left
    undefined. *)
Record t := {
  name : string;
  requirements : option (list string);
  setupAfter : option string
}.

End Plugin.

(** The pending result of [plugin.onEnable(options)].  What a plugin does when
    it is enabled is the plugin's own code; the registry only starts the call
    and keeps its promise, which is identified here by the call itself. *)
Inductive EnablePromise :=
  | OnEnable (plugIn : Plugin.t) (options : Options).

(** An element of [pluginsQueue]: the object [{ plugin, options, name }]
    built by [extend]. *)
Record QueuedPlugin := {
  plugin : Plugin.t;
  options : Options;
  name : string
}.

(** An array element searched by [indexOf]: a string or a queue object. *)
Inductive Element :=
  | EStr (s : string)
  | EObj (o : QueuedPlugin).

(** [x === el] for a string [x]: a string is never identical to an object. *)
Definition sameString (x : string) (el : Element) : bool :=
  match el with
  | EStr s => String.eqb x s
  | EObj _ => false
  end.

(** [array.indexOf(x)] for a string [x]: the first index holding a strictly
    equal element, [-1] when there is none. *)
Fixpoint indexOf (x : string) (array : list Element) : Z :=
  match array with
  | [] => -1
  | el :: rest =>
      if sameString x el then 0
      else let i := indexOf x rest in
           if i =? -1 then -1 else i + 1
  end.

(** [array.splice(start, 0, item)] for [0 <= start]. *)
Definition splice {A} (start : Z) (item : A) (array : list A) : list A :=
  take (Z.to_nat start) array ++ item :: drop (Z.to_nat start) array.

(** [array.push(item)] *)
Definition push {A} (item : A) (array : list A) : list A := array ++ [item].

(** ** Exception types *)

(** An exception type is a constructor (a class).  A class is known by its
    name and by the class it extends; the prototype of a derived constructor
    is the constructor it extends. *)
Inductive ExceptionType :=
  | BaseClass (className : string)
  | SubClass (className : string) (super : ExceptionType).

#[global] Instance ExceptionType_eq_dec : EqDecision ExceptionType.
Proof. solve_decision. Defined.

Fixpoint chain (c : ExceptionType) : list string :=
  match c with
  | BaseClass n => [n]
  | SubClass n s => n :: chain s
  end.

Fixpoint unchain (l : list string) : option ExceptionType :=
  match l with
  | [] => None
  | [n] => Some (BaseClass n)
  | n :: rest => SubClass n <$> unchain rest
  end.

Lemma unchain_chain c : unchain (chain c) = Some c.
Proof.
  induction c as [n|n s IH]; [done|].
  cbn [chain unchain]. rewrite IH. by destruct s.
Qed.

#[global] Instance ExceptionType_countable : Countable ExceptionType :=
  inj_countable chain unchain unchain_chain.

(** [c.isPrototypeOf(o)]: [c] occurs on the prototype chain of [o], the
    object [o] itself excluded. *)
Fixpoint isPrototypeOf (c o : ExceptionType) : bool :=
  match o with
  | BaseClass _ => false
  | SubClass _ super => bool_decide (super = c) || isPrototypeOf c super
  end.

(** [(error, exceptionType) => ...], awaited. *)
Abbreviation ExceptionHandler := (value → ExceptionType → value).

(** ** Composers *)

(** A middleware [(context, next) => result]. *)
Abbreviation Middleware := (value → (unit → value) → value).

(** The [Composer] of the middleware-io library: an array of middlewares
    that [composer.use] pushes to.  Composers are named by strings. *)
Abbreviation Composer := (list Middleware).

(** ** The facade *)

Record VK := {
  pluginsQueue : list QueuedPlugin;
  pluginsQueueNames : list Element;
  plugins : list string;
  queuePromises : list EnablePromise;
  handlers : gmap ExceptionType (list ExceptionHandler);
  handlersExceptions : list ExceptionType;
  composersStack : gmap string Composer
}.

(** The fields as the class initialises them. *)
Definition newVK : VK := {|
  pluginsQueue := [];
  pluginsQueueNames := [];
  plugins := [];
  queuePromises := [];
  handlers := ∅;
  handlersExceptions := [];
  composersStack := ∅
|}.

Definition withQueue (q : list QueuedPlugin) (n : list Element) (vk : VK) : VK :=
  {| pluginsQueue := q; pluginsQueueNames := n; plugins := plugins vk;
     queuePromises := queuePromises vk; handlers := handlers vk;
     handlersExceptions := handlersExceptions vk;
     composersStack := composersStack vk |}.

Definition withPlugins (p : list string) (vk : VK) : VK :=
  {| pluginsQueue := pluginsQueue vk; pluginsQueueNames := pluginsQueueNames vk;
     plugins := p; queuePromises := queuePromises vk; handlers := handlers vk;
     handlersExceptions := handlersExceptions vk;
     composersStack := composersStack vk |}.

Definition withQueuePromises (p : list EnablePromise) (vk : VK) : VK :=
  {| pluginsQueue := pluginsQueue vk; pluginsQueueNames := pluginsQueueNames vk;
     plugins := plugins vk; queuePromises := p; handlers := handlers vk;
     handlersExceptions := handlersExceptions vk;
     composersStack := composersStack vk |}.

Definition withHandlers (h : gmap ExceptionType (list ExceptionHandler))
    (e : list ExceptionType) (vk : VK) : VK :=
  {| pluginsQueue := pluginsQueue vk; pluginsQueueNames := pluginsQueueNames vk;
     plugins := plugins vk; queuePromises := queuePromises vk; handlers := h;
     handlersExceptions := e; composersStack := composersStack vk |}.

Definition withComposers (c : gmap string Composer) (vk : VK) : VK :=
  {| pluginsQueue := pluginsQueue vk; pluginsQueueNames := pluginsQueueNames vk;
     plugins := plugins vk; queuePromises := queuePromises vk;
     handlers := handlers vk; handlersExceptions := handlersExceptions vk;
     composersStack := c |}.

(** ** Methods that may throw: state and completion *)

Inductive Completion (A : Type) :=
  | Return (a : A)
  | Throw (e : JsError).
Arguments Return {A} a.
Arguments Throw {A} e.

(** A method body: it runs on the facade, completes normally or throws, and
    leaves the facade as it was at that moment. *)
Definition Method (A : Type) : Type := VK → Completion A * VK.

Definition ret {A} (a : A) : Method A := λ vk, (Return a, vk).
Definition throw {A} (e : JsError) : Method A := λ vk, (Throw e, vk).
Definition bind {A B} (m : Method A) (k : A → Method B) : Method B :=
  λ vk, match m vk with
        | (Return a, vk') => k a vk'
        | (Throw e, vk') => (Throw e, vk')
        end.
Definition read {A} (f : VK → A) : Method A := λ vk, (Return (f vk), vk).
Definition update (f : VK → VK) : Method unit := λ vk, (Return tt, f vk).
Definition when (b : bool) (m : Method unit) : Method unit :=
  if b then m else ret tt.

Notation "'do' x <- m ; k" := (bind m (λ x, k))
  (at level 10, x name, m at level 100, k at level 200).
Notation "m ;; k" := (bind m (λ _, k))
  (at level 100, k at level 200, right associativity).

(** ** Plugin registry *)

(** [hasPlugin(pluginName)] *)
Definition hasPlugin (pluginName : string) (vk : VK) : bool :=
  negb (indexOf pluginName (EStr <$> plugins vk) =? -1).

(** [pluginInQueue(plugin)] *)
Definition pluginInQueue (plugIn : Plugin.t) (vk : VK) : bool :=
  negb (indexOf (Plugin.name plugIn) (pluginsQueueNames vk) =? -1).

(** [for (let requiredPluginName of plugIn.requirements) { ... }] *)
Fixpoint eachRequirement (reqs : list string) : Method unit :=
  match reqs with
  | [] => ret tt
  | requiredPluginName :: rest =>
      do installed <- read (hasPlugin requiredPluginName);
      if installed then eachRequirement rest else
      do queued <- read (λ vk,
           negb (indexOf requiredPluginName (pluginsQueueNames vk) =? -1));
      if queued then eachRequirement rest else
      throw (Error (String.append "Plugin requires a "
               (String.append requiredPluginName
                  " plugin. You should install this plugin!")))
  end.

(** [if (plugIn.requirements) { for ... }] *)
Definition checkRequirements (plugIn : Plugin.t) : Method unit :=
  match Plugin.requirements plugIn with
  | Some reqs => eachRequirement reqs
  | None => ret tt
  end.

(** A string used as a condition: a non-empty string is truthy, an absent
    one is not. *)
Definition given (s : option string) : bool :=
  match s with
  | Some s => negb (String.eqb s "")
  | None => false
  end.

(** [extend(plugin, pluginOptions, addInQueue)], on the plugin instance
    [plugIn] that [new plugin(this, pluginOptions)] built.  It returns the
    promise of [onEnable] when the plugin is enabled at once, and
    [undefined] otherwise. *)
Definition extend (plugIn : Plugin.t) (pluginOptions : Options)
    (addInQueue : bool) : Method (option EnablePromise) :=
  when (String.eqb (Plugin.name plugIn) ""
        || String.eqb (Plugin.name plugIn) "defaultPlugin")
    (throw (Error "Plugin must have unique name"));;
  do installed <- read (hasPlugin (Plugin.name plugIn));
  when installed (throw (Error "This plugin already installed"));;
  let newPlugin :=
    {| plugin := plugIn; options := pluginOptions; name := Plugin.name plugIn |} in
  checkRequirements plugIn;;
  when (given (Plugin.setupAfter plugIn) && addInQueue)
    (do setupAfterIndex <- read (λ vk,
          indexOf (default "" (Plugin.setupAfter plugIn))
                  (EObj <$> pluginsQueue vk));
     when (negb (setupAfterIndex =? -1))
       (update (λ vk,
          withQueue (splice setupAfterIndex newPlugin (pluginsQueue vk))
                    (splice setupAfterIndex (EObj newPlugin) (pluginsQueueNames vk))
                    vk)));;
  when (negb (given (Plugin.setupAfter plugIn)) && addInQueue)
    (update (λ vk,
       withQueue (push newPlugin (pluginsQueue vk))
                 (push (EStr (name newPlugin)) (pluginsQueueNames vk)) vk));;
  do inQueue <- read (pluginInQueue (plugin newPlugin));
  if negb inQueue && addInQueue then
    update (λ vk,
      withQueue (push newPlugin (pluginsQueue vk))
                (push (EStr (name newPlugin)) (pluginsQueueNames vk)) vk);;
    ret None
  else if negb addInQueue then
    update (λ vk, withPlugins (push (Plugin.name plugIn) (plugins vk)) vk);;
    let enable := OnEnable plugIn pluginOptions in
    update (λ vk, withQueuePromises (push enable (queuePromises vk)) vk);;
    ret (Some enable)
  else ret None.

(** The body of [initers.forEach] in [setup], over the copy of the queue:
    every plugin is marked installed and enabled with its options overridden
    by [globalPluginOptions[plugin.name] || {}]. *)
Fixpoint enableAll (globalPluginOptions : gmap string Options)
    (initers : list QueuedPlugin) (vk : VK) : list EnablePromise * VK :=
  match initers with
  | [] => ([], vk)
  | q :: rest =>
      let vk1 := withPlugins (push (Plugin.name (plugin q)) (plugins vk)) vk in
      let enabled :=
        OnEnable (plugin q)
          (spread (options q)
                  (default ∅ (globalPluginOptions !! Plugin.name (plugin q)))) in
      let '(promises, vk2) := enableAll globalPluginOptions rest vk1 in
      (enabled :: promises, vk2)
  end.

(** [setup(globalPluginOptions)].  The result is the array handed to
    [Promise.all]: the promises of the calls made now, then those kept in
    [queuePromises]; with an empty queue nothing is called or awaited. *)
Definition setup (globalPluginOptions : gmap string Options)
    : Method (list EnablePromise) :=
  λ vk,
    if (Z.of_nat (length (pluginsQueue vk)) =? 0) then (Return [], vk)
    else
      let initers := pluginsQueue vk in
      let '(promises, vk') := enableAll globalPluginOptions initers vk in
      (Return (promises ++ queuePromises vk'), vk').

(** ** Exception handler registry *)

(** [exceptionHandlers(exceptionType)]: [handlers.get(exceptionType) || []] *)
Definition exceptionHandlers (exceptionType : ExceptionType) (vk : VK)
    : list ExceptionHandler :=
  default [] (handlers vk !! exceptionType).

(** [set.add(x)] on a [Set], which keeps its elements in insertion order and
    ignores an element it already holds. *)
Definition setAdd (x : ExceptionType) (set : list ExceptionType)
    : list ExceptionType :=
  if bool_decide (x ∈ set) then set else set ++ [x].

(** [handleException(exceptionType, handler)]; it returns the position
    [[exceptionType, index]] of the handler. *)
Definition handleException (exceptionType : ExceptionType)
    (handler : ExceptionHandler) (vk : VK) : (ExceptionType * Z) * VK :=
  let types := setAdd exceptionType (handlersExceptions vk) in
  let exceptionHandlers' := exceptionHandlers exceptionType vk ++ [handler] in
  ((exceptionType, Z.of_nat (length exceptionHandlers') - 1),
   withHandlers (<[exceptionType := exceptionHandlers']> (handlers vk)) types vk).

(** [handleExceptionFirstly(exceptionType, handler)] *)
Definition handleExceptionFirstly (exceptionType : ExceptionType)
    (handler : ExceptionHandler) (vk : VK) : (ExceptionType * Z) * VK :=
  let types := setAdd exceptionType (handlersExceptions vk) in
  let exceptionHandlers' := handler :: exceptionHandlers exceptionType vk in
  ((exceptionType, 0),
   withHandlers (<[exceptionType := exceptionHandlers']> (handlers vk)) types vk).

(** The promise built by [processHandlers]: only the first call of [resolve]
    or [reject] settles it. *)
Inductive PromiseState :=
  | Pending
  | Resolved (v : value)
  | Rejected (reason : value).

Definition resolve (v : value) (p : PromiseState) : PromiseState :=
  match p with Pending => Resolved v | _ => p end.

Definition reject (reason : value) (p : PromiseState) : PromiseState :=
  match p with Pending => Rejected reason | _ => p end.

(** One call [handler(error, exceptionType)]: the handled type under which
    the handler is registered, its index there, and what it returned. *)
Record Invocation := {
  handledType : ExceptionType;
  position : nat;
  returned : value
}.

(** The locals of the executor in [processHandlers], and the calls made so
    far. *)
Record Resolution := {
  handled : bool;
  promise : PromiseState;
  invoked : list Invocation
}.

(** [for (let handler of handlers) { ... }], from the handler at index [i]. *)
Fixpoint runHandlers (exceptionTypeHandled : ExceptionType)
    (handlers : list ExceptionHandler) (i : nat)
    (exceptionType : ExceptionType) (error : value) (r : Resolution)
    : Resolution :=
  match handlers with
  | [] => r
  | handler :: rest =>
      let handlerReturned := handler error exceptionType in
      let calls :=
        invoked r ++ [{| handledType := exceptionTypeHandled; position := i;
                         returned := handlerReturned |}] in
      if strictNe handlerReturned error then
        (* handled = true; if (handlerReturned) resolve(handlerReturned); break *)
        {| handled := true;
           promise := if truthy handlerReturned
                      then resolve handlerReturned (promise r) else promise r;
           invoked := calls |}
      else
        runHandlers exceptionTypeHandled rest (S i) exceptionType error
          {| handled := handled r; promise := promise r; invoked := calls |}
  end.

(** [for (let exceptionTypeHandled of this.handlersExceptions) { ... }] *)
Fixpoint eachHandledType (types : list ExceptionType) (vk : VK)
    (exceptionType : ExceptionType) (error : value) (r : Resolution)
    : Resolution :=
  match types with
  | [] => r
  | exceptionTypeHandled :: rest =>
      let r' :=
        if isPrototypeOf exceptionTypeHandled exceptionType
           || bool_decide (exceptionTypeHandled = exceptionType)
        then runHandlers exceptionTypeHandled
               (exceptionHandlers exceptionTypeHandled vk) 0
               exceptionType error r
        else r in
      eachHandledType rest vk exceptionType error r'
  end.

(** [processHandlers(exceptionType, error)]: the state of the returned
    promise once the executor has run, with the handler calls it made.
    Handlers are taken to return, and not to register handlers themselves. *)
Definition processHandlers (exceptionType : ExceptionType) (error : value)
    (vk : VK) : Resolution :=
  let r := eachHandledType (handlersExceptions vk) vk exceptionType error
             {| handled := false; promise := Pending; invoked := [] |} in
  if negb (handled r)
  then {| handled := handled r; promise := reject error (promise r);
          invoked := invoked r |}
  else r.

(** ** Composer stack *)

(** [getComposer(composerName)]: [undefined] is [None]. *)
Definition getComposer (composerName : string) (vk : VK) : option Composer :=
  composersStack vk !! composerName.

(** [hasComposer(composerName)] *)
Definition hasComposer (composerName : string) (vk : VK) : bool :=
  match getComposer composerName vk with
  | Some _ => true
  | None => false
  end.

(** [addComposer(composerName, stack)] *)
Definition addComposer (composerName : string) (stack : list Middleware)
    (vk : VK) : VK :=
  if negb (hasComposer composerName vk) then
    let composer := foldl (λ composer middleware, push middleware composer) [] stack in
    withComposers (<[composerName := composer]> (composersStack vk)) vk
  else vk.

(** [use(composerName, middleware)]; the branch on [hasComposer] is the match
    on what [getComposer] finds. *)
Definition use (composerName : string) (middleware : Middleware) (vk : VK) : VK :=
  match getComposer composerName vk with
  | Some composer =>
      withComposers (<[composerName := push middleware composer]> (composersStack vk)) vk
  | None => addComposer composerName [middleware] vk
  end.

(** [noopNext] of middleware-io. *)
Definition noopNext : unit → value := λ _, VUndef.

(** [composer.compose()(context, next)] of middleware-io: a middleware gets
    the context and the continuation that runs the middlewares after it; past
    the last one the continuation is [next].  This is the run of middlewares
    that call their continuation at most once; middleware-io rejects a second
    call ('next() called multiple times'), which is not modelled. *)
Fixpoint composed (composer : Composer) (context : value) (next : unit → value)
    : value :=
  match composer with
  | [] => next tt
  | middleware :: rest => middleware context (λ _, composed rest context next)
  end.

(** [compose(composerName, context)] *)
Definition compose (composerName : string) (context : value) : Method value :=
  do created <- read (hasComposer composerName);
  if negb created then throw (Error "You trying run composer which not created!")
  else
    do composer <- read (λ vk, default [] (getComposer composerName vk));
    ret (composed composer context noopNext).

(** ** Response classifier ([API.checkOnErrors]) *)

(** The body of a response: parsed JSON, or a string when the server did not
    answer with JSON.  [DUndef] is what reading an absent property gives.
    The error codes the classifier compares are integers. *)
Inductive Data :=
  | DUndef
  | DNull
  | DBool (b : bool)
  | DNum (n : Z)
  | DStr (s : string)
  | DArr (items : list Data)
  | DObj (fields : list (string * Data)).

(** ToBoolean; arrays and objects are truthy. *)
Definition truthyData (d : Data) : bool :=
  match d with
  | DUndef | DNull => false
  | DBool b => b
  | DNum n => negb (n =? 0)
  | DStr s => negb (String.eqb s "")
  | DArr _ | DObj _ => true
  end.

Fixpoint field (key : string) (fields : list (string * Data)) : Data :=
  match fields with
  | [] => DUndef
  | (k, d) :: rest => if String.eqb key k then d else field key rest
  end.

(** [d.key] for a [d] that is neither [null] nor [undefined].  The keys read
    by the classifier are names of response fields; none of them is a
    property of a string, a number, a boolean or an array, so only an object
    can hold one. *)
Definition prop (d : Data) (key : string) : Data :=
  match d with
  | DObj fields => field key fields
  | _ => DUndef
  end.

(** [a || b] *)
Definition orElse (a b : Data) : Data := if truthyData a then a else b.

(** [d === s] and [d === n] for a string [s] and a number [n]. *)
Definition isString (d : Data) (s : string) : bool :=
  match d with DStr s' => String.eqb s' s | _ => false end.

Definition isNumber (d : Data) (n : Z) : bool :=
  match d with DNum n' => n' =? n | _ => false end.

(** [vk.options.errors]; the fields are those of the defaults in [VK]. *)
Record ErrorsOptions := {
  captchaError : string;
  captchaErrorCode : Z;
  validationError : string;
  redirectErrorCode : Z
}.

(** The defaults of [VK.options]. *)
Definition defaultErrors : ErrorsOptions := {|
  captchaError := "need_captcha";
  captchaErrorCode := 14;
  validationError := "need_validation";
  redirectErrorCode := 17
|}.

(** [errorData] without [request] and [response], which are passed through
    as they came. *)
Record ExceptionData := {
  code : Data;
  errorType : Data
}.

(** Modelled from the spec: the exception classes (errors/...) are not part
    of the sources at hand.  A structured failure carries a message, a code
    and a subtype tag, and the fields of its category; it is represented by
    its class and the arguments [checkOnErrors] gives to the constructor.
    [TypeError] is the engine's own, for a property read on [null] or
    [undefined]. *)
Inductive ApiException :=
  | RequestParseException (message : Data)
  | CaptchaException (message : Data) (data : ExceptionData)
      (captchaSid captchaImg : Data)
  | HaveBanException (message : Data) (data : ExceptionData)
      (banInfo redirectUri : Data)
  | TwoFactorException (message : Data) (data : ExceptionData)
      (validationType phoneMask redirectUri validationSid : Data)
  | NeedValidationException (message : Data) (data : ExceptionData)
  | RedirectURIException (message : Data) (data : ExceptionData)
      (redirectUri : Data)
  | APIException (message : Data) (data : ExceptionData)
  | TypeError.

(** The message an exception was built with. *)
Definition messageOf (e : ApiException) : Data :=
  match e with
  | RequestParseException m | CaptchaException m _ _ _
  | HaveBanException m _ _ _ | TwoFactorException m _ _ _ _ _
  | NeedValidationException m _ | RedirectURIException m _ _
  | APIException m _ => m
  | TypeError => DUndef
  end.

Inductive Checked (A : Type) :=
  | Passed (a : A)
  | Raised (e : ApiException).
Arguments Passed {A} a.
Arguments Raised {A} e.

(** The three locals [errorCode, errorMessage, errorType] after the two
    [if] statements that fill them. *)
Definition extractError (res : Data) : Data * Data * Data :=
  let error := prop res "error" in
  let '(errorCode, errorMessage, errorType) :=
    if truthyData error && truthyData (prop error "message") then
      (prop error "error_code", prop error "message",
       orElse (prop error "error_type") (DStr ""))
    else if truthyData error && truthyData (prop error "error_msg") then
      (prop error "error_code", prop error "error_msg",
       orElse (prop error "error_type") (DStr ""))
    else if truthyData (prop res "error_description") then
      (prop res "error_code", prop res "error_description",
       orElse (prop res "error_type") (DStr ""))
    else (DUndef, DUndef, DUndef) in
  if truthyData error && truthyData (prop res "error_description") then
    (error, prop res "error_description",
     orElse (prop res "error_type") (DStr ""))
  else (errorCode, errorMessage, errorType).

(** [checkOnErrors(response, request)] on [res = response.data], with
    [errors = this.vk.options.errors]. *)
Definition checkOnErrors (errors : ErrorsOptions) (res : Data) : Checked unit :=
  match res with
  | DStr _ =>
      Raised (RequestParseException
                (DStr "Server responded with bad data (not a json)"))
  | DNull | DUndef => Raised TypeError
  | _ =>
      if truthyData (prop res "error") then
        let '(errorCode, errorMessage, errorType) := extractError res in
        let errorData := {| code := errorCode; errorType := errorType |} in
        if isString (prop res "error") (captchaError errors)
           || isNumber (prop (prop res "error") "error_code")
                       (captchaErrorCode errors)
        then
          Raised (CaptchaException errorMessage errorData
                    (prop (prop res "error") "captcha_sid")
                    (prop (prop res "error") "captcha_img"))
        else if isString (prop res "error") (validationError errors) then
          if truthyData (prop res "ban_info") then
            Raised (HaveBanException errorMessage errorData
                      (prop res "ban_info")
                      (orElse (prop res "redirect_uri") DNull))
          else if truthyData (prop res "validation_type") then
            Raised (TwoFactorException errorMessage errorData
                      (prop res "validation_type")
                      (orElse (prop res "phone_mask") (DStr ""))
                      (orElse (prop res "redirect_uri") (DStr ""))
                      (orElse (prop res "validation_sid") (DStr "")))
          else Raised (NeedValidationException errorMessage errorData)
        else if isNumber (prop (prop res "error") "error_code")
                         (redirectErrorCode errors)
        then
          Raised (RedirectURIException errorMessage errorData
                    (prop res "redirect_uri"))
        else Raised (APIException errorMessage errorData)
      else Passed tt
  end.

(** [createResponse(response, request)] on [res = response.data] *)
Definition createResponse (errors : ErrorsOptions) (res : Data) : Checked Data :=
  match checkOnErrors errors res with
  | Passed _ =>
      Passed (if truthyData (prop res "response") then prop res "response" else res)
  | Raised e => Raised e
  end.

(** ** Vocabulary of the statements *)

(** A requirement is met when it is installed or its name is queued. *)
Definition met (requiredPluginName : string) (vk : VK) : bool :=
  hasPlugin requiredPluginName vk
  || negb (indexOf requiredPluginName (pluginsQueueNames vk) =? -1).

(** Every declared requirement is met. *)
Definition requirementsMet (plugIn : Plugin.t) (vk : VK) : Prop :=
  ∀ reqs r, Plugin.requirements plugIn = Some reqs → r ∈ reqs → met r vk = true.

(** The name passes the two checks at the head of [extend]. *)
Definition nameAccepted (plugIn : Plugin.t) (vk : VK) : Prop :=
  Plugin.name plugIn ≠ "" ∧ Plugin.name plugIn ≠ "defaultPlugin"
  ∧ hasPlugin (Plugin.name plugIn) vk = false.

(** The registry with [newPlugin] pushed on both queue arrays. *)
Definition enqueued (plugIn : Plugin.t) (pluginOptions : Options) (vk : VK) : VK :=
  withQueue
    (push {| plugin := plugIn; options := pluginOptions;
             name := Plugin.name plugIn |} (pluginsQueue vk))
    (push (EStr (Plugin.name plugIn)) (pluginsQueueNames vk)) vk.

(** Two plugins for the examples: ["Y"] requires ["X"] and asks to be set up
    before it. *)
Definition pluginX : Plugin.t :=
  {| Plugin.name := "X"; Plugin.requirements := None;
     Plugin.setupAfter := None |}.

Definition pluginY : Plugin.t :=
  {| Plugin.name := "Y"; Plugin.requirements := Some ["X"];
     Plugin.setupAfter := Some "X" |}.

(** The registry after [extend(X)] on a fresh facade: ["X"] is queued at
    position 0 and nothing is installed. *)
Definition queuedX : VK := (extend pluginX ∅ true newVK).2.

(** The registry after [extend(X, {}, false)]: ["X"] is installed. *)
Definition installedX : VK := (extend pluginX ∅ false newVK).2.

(** The calls [plugin.onEnable({...options, ...overrides})] that one pass of
    [setup] over the queue makes, in queue order. *)
Definition enableCalls (globalPluginOptions : gmap string Options)
    (queue : list QueuedPlugin) : list EnablePromise :=
  (λ q, OnEnable (plugin q)
          (spread (options q)
             (default ∅ (globalPluginOptions !! Plugin.name (plugin q)))))
  <$> queue.

(** The names one pass of [setup] pushes on the installed list. *)
Definition enabledNames (queue : list QueuedPlugin) : list string :=
  (λ q, Plugin.name (plugin q)) <$> queue.

(** [exceptionTypeHandled] is [exceptionType] or one of the classes it
    derives from. *)
Definition matchesType (exceptionTypeHandled exceptionType : ExceptionType) : bool :=
  isPrototypeOf exceptionTypeHandled exceptionType
  || bool_decide (exceptionTypeHandled = exceptionType).

(** The calls made on the handlers of one handled type: in order from index
    [i], up to and including the first handler whose result is not the error
    it was given. *)
Fixpoint untilHandled (exceptionTypeHandled : ExceptionType)
    (handlers : list ExceptionHandler) (i : nat)
    (exceptionType : ExceptionType) (error : value) : list Invocation :=
  match handlers with
  | [] => []
  | handler :: rest =>
      {| handledType := exceptionTypeHandled; position := i;
         returned := handler error exceptionType |}
      :: (if strictNe (handler error exceptionType) error then []
          else untilHandled exceptionTypeHandled rest (S i) exceptionType error)
  end.

(** The calls of a whole resolution: those of every matching handled type,
    one type after the other in the order of [handlersExceptions]. *)
Definition expectedCalls (types : list ExceptionType) (vk : VK)
    (exceptionType : ExceptionType) (error : value) : list Invocation :=
  flat_map (λ t, if matchesType t exceptionType
                 then untilHandled t (exceptionHandlers t vk) 0 exceptionType error
                 else []) types.

(** A call that handled the error, and one that handled it with a truthy
    result. *)
Definition handledBy (error : value) (c : Invocation) : bool :=
  strictNe (returned c) error.

Definition recoveredBy (error : value) (c : Invocation) : bool :=
  strictNe (returned c) error && truthy (returned c).

(** What the calls make of a promise in state [p]: the first truthy result
    that is not the error resolves it. *)
Definition settle (error : value) (p : PromiseState) (calls : list Invocation)
    : PromiseState :=
  match List.find (recoveredBy error) calls with
  | Some c => resolve (returned c) p
  | None => p
  end.

(** The promise after all calls: resolved with the first truthy result that
    is not the error; pending when the error was handled with falsy results
    only; rejected with the error when no call handled it. *)
Definition settled (error : value) (calls : list Invocation) : PromiseState :=
  match List.find (recoveredBy error) calls with
  | Some c => Resolved (returned c)
  | None => if existsb (handledBy error) calls then Pending else Rejected error
  end.

(** [Error] and a class derived from it, with a registry where the derived
    class has a handler that swallows the error (it returns [undefined]) and
    the base class a handler that recovers with ["x"]. *)
Definition BaseError : ExceptionType := BaseClass "Error".
Definition DerivedError : ExceptionType := SubClass "APIException" BaseError.

Definition swallow : ExceptionHandler := λ _ _, VUndef.
Definition recover : ExceptionHandler := λ _ _, VStr "x".
Definition rethrow : ExceptionHandler := λ error _, error.

Definition twoHandlers : VK :=
  (handleException BaseError recover
     (handleException DerivedError swallow newVK).2).2.

(** [derivesFrom d b]: class [d] is declared as a subtype of [b], directly
    ([class d extends b]) or through the classes in between. *)
Inductive derivesFrom : ExceptionType → ExceptionType → Prop :=
  | derives_direct n b : derivesFrom (SubClass n b) b
  | derives_further n s b : derivesFrom s b → derivesFrom (SubClass n s) b.

(** A call on the composer [composerName]: creating it with an empty stack
    ([addComposer(composerName, [])]) or appending a middleware
    ([use(composerName, middleware)]). *)
Inductive ComposerCall :=
  | Ensure
  | Append (middleware : Middleware).

Definition callOn (composerName : string) (vk : VK) (c : ComposerCall) : VK :=
  match c with
  | Ensure => addComposer composerName [] vk
  | Append middleware => use composerName middleware vk
  end.

(** The middlewares appended by a sequence of calls, in call order. *)
Definition appended (calls : list ComposerCall) : list Middleware :=
  flat_map (λ c, match c with Ensure => [] | Append m => [m] end) calls.

(** Three middlewares for the examples: the first two call [next], the last
    one answers by itself. *)
Definition passA : Middleware := λ _ next, next tt.
Definition passB : Middleware := λ context next, next tt.
Definition stopC : Middleware := λ context _, context.

(** The body [{"error": "need_captcha", "captcha_sid": "1",
    "captcha_img": "url"}]. *)
Definition captchaBody : Data :=
  DObj [("error", DStr "need_captcha"); ("captcha_sid", DStr "1");
        ("captcha_img", DStr "url")].

(** The body [{"error": {"message": "m"}, "error_description": ""}]. *)
Definition emptyDescriptionBody : Data :=
  DObj [("error", DObj [("message", DStr "m")]); ("error_description", DStr "")].

(** The body [{"error": {"error_msg": "m"}, "error_description": "d"}]. *)
Definition describedBody : Data :=
  DObj [("error", DObj [("error_msg", DStr "m")]); ("error_description", DStr "d")].

(** The two queue arrays go together: [pluginsQueueNames] holds the names of
    the objects of [pluginsQueue], in the same order. *)
Definition queueAligned (vk : VK) : Prop :=
  pluginsQueueNames vk = (λ q, EStr (name q)) <$> pluginsQueue vk.

(** ** Further methods and vocabulary *)

(** The error of the requirement loop for a missing [requiredPluginName]. *)
Definition requiresError (requiredPluginName : string) : JsError :=
  Error (String.append "Plugin requires a "
           (String.append requiredPluginName
              " plugin. You should install this plugin!")).

(** The registry after an immediate [extend]: the name is pushed on the
    installed list and the promise of [onEnable] on [queuePromises]. *)
Definition installedNow (plugIn : Plugin.t) (pluginOptions : Options) (vk : VK) : VK :=
  withQueuePromises
    (push (OnEnable plugIn pluginOptions) (queuePromises vk))
    (withPlugins (push (Plugin.name plugIn) (plugins vk)) vk).

(** A call of one of the two methods that drive the plugin registry. *)
Inductive RegistryCall :=
  | CallExtend (plugIn : Plugin.t) (pluginOptions : Options) (addInQueue : bool)
  | CallSetup (globalPluginOptions : gmap string Options).

(** The facade after a call, whether the call returned or threw. *)
Definition afterCall (vk : VK) (c : RegistryCall) : VK :=
  match c with
  | CallExtend plugIn pluginOptions addInQueue =>
      (extend plugIn pluginOptions addInQueue vk).2
  | CallSetup globalPluginOptions => (setup globalPluginOptions vk).2
  end.

(** A plugin with three requirements, for the examples. *)
Definition pluginZ : Plugin.t :=
  {| Plugin.name := "Z"; Plugin.requirements := Some ["X"; "W"; "V"];
     Plugin.setupAfter := None |}.

(** A queue object as [extend] builds it: its [name] is the name of its
    plugin, which passed the name check. *)
Definition wellNamed (q : QueuedPlugin) : Prop :=
  name q = Plugin.name (plugin q) ∧ name q ≠ "" ∧ name q ≠ "defaultPlugin".

(** Options for the examples. *)
Definition verbose : Options := {[ "verbose" := VBool true ]}.
Definition quiet : Options := {[ "verbose" := VBool false ]}.

(** [array.filter((_, i) => i !== position)], for the part of the array that
    starts at index [i]. *)
Fixpoint filterIndex {A} (position i : Z) (array : list A) : list A :=
  match array with
  | [] => []
  | x :: rest =>
      if negb (i =? position) then x :: filterIndex position (i + 1) rest
      else filterIndex position (i + 1) rest
  end.

(** [removeExceptionHandler(exceptionPosition)] *)
Definition removeExceptionHandler (exceptionPosition : ExceptionType * Z)
    (vk : VK) : VK :=
  let exceptions := exceptionHandlers exceptionPosition.1 vk in
  let exceptions := filterIndex exceptionPosition.2 0 exceptions in
  withHandlers (<[exceptionPosition.1 := exceptions]> (handlers vk))
    (handlersExceptions vk) vk.

(** A call of one of the three methods that change the handler registry. *)
Inductive HandlerCall :=
  | CallHandle (exceptionType : ExceptionType) (handler : ExceptionHandler)
  | CallHandleFirstly (exceptionType : ExceptionType) (handler : ExceptionHandler)
  | CallRemove (exceptionPosition : ExceptionType * Z).

Definition afterHandlerCall (vk : VK) (c : HandlerCall) : VK :=
  match c with
  | CallHandle exceptionType handler =>
      (handleException exceptionType handler vk).2
  | CallHandleFirstly exceptionType handler =>
      (handleExceptionFirstly exceptionType handler vk).2
  | CallRemove exceptionPosition =>
      removeExceptionHandler exceptionPosition vk
  end.

(** The handled types are a set, and every type that has a handler is one of
    them. *)
Definition handlersTracked (vk : VK) : Prop :=
  NoDup (handlersExceptions vk)
  ∧ ∀ t, exceptionHandlers t vk ≠ [] → t ∈ handlersExceptions vk.

(** A class unrelated to [BaseError]. *)
Definition OtherError : ExceptionType := BaseClass "RangeError".

(** The [errorData] an exception was built with, if it has one. *)
Definition dataOf (e : ApiException) : option ExceptionData :=
  match e with
  | CaptchaException _ d _ _ | HaveBanException _ d _ _
  | TwoFactorException _ d _ _ _ _ | NeedValidationException _ d
  | RedirectURIException _ d _ | APIException _ d => Some d
  | RequestParseException _ | TypeError => None
  end.

(** Bodies for the examples. *)
Definition nestedCaptchaBody : Data :=
  DObj [("error",
         DObj [("error_code", DNum 14); ("error_msg", DStr "Captcha needed");
               ("captcha_sid", DStr "1"); ("captcha_img", DStr "url")])].

Definition redirectBody : Data :=
  DObj [("error", DObj [("error_code", DNum 17); ("redirect_uri", DStr "nested")]);
        ("redirect_uri", DStr "top")].

Definition bannedBody : Data :=
  DObj [("error", DStr "need_validation"); ("error_description", DStr "banned");
        ("ban_info", DObj [("member_name", DStr "n")]);
        ("validation_type", DStr "2fa_sms")].

Definition oauthBody : Data :=
  DObj [("error", DStr "invalid_client");
        ("error_description", DStr "Username or password is incorrect")].

Definition apiErrorBody : Data :=
  DObj [("error", DObj [("error_code", DNum 5);
                        ("error_msg", DStr "User authorization failed")])].

Definition zeroResponseBody : Data := DObj [("response", DNum 0)].

(** ** Options of the facade and the requests of [API] *)

(** [String(d)], the conversion a template literal applies.  A number is
    printed as its decimal digits, which is what the engine gives for the
    integers it holds exactly, those up to 2^53 in absolute value
    ([exactNumbers]); beyond that a number is rounded, and from 10^21 it is
    printed with an exponent, neither of which is modelled: a statement that
    prints a value assumes [exactNumbers] of it. *)
Fixpoint toStr (d : Data) : string :=
  match d with
  | DUndef => "undefined"
  | DNull => "null"
  | DBool true => "true"
  | DBool false => "false"
  | DNum n => pretty n
  | DStr s => s
  | DArr items =>
      (fix join (l : list Data) : string :=
         match l with
         | [] => ""
         | [x] => match x with DUndef | DNull => "" | _ => toStr x end
         | x :: rest =>
             String.append
               (match x with DUndef | DNull => "" | _ => toStr x end)
               (String.append "," (join rest))
         end) items
  | DObj _ => "[object Object]"
  end.

(** The values whose conversion [toStr] gives exactly: every number that
    gets printed (the value itself, or an element of the array, at any depth)
    is an integer of at most 2^53 in absolute value.  An object is printed
    without looking inside it. *)
Fixpoint exactNumbers (d : Data) : bool :=
  match d with
  | DNum n => Z.abs n <=? 2 ^ 53
  | DArr items =>
      (fix all (l : list Data) : bool :=
         match l with
         | [] => true
         | x :: rest => exactNumbers x && all rest
         end) items
  | _ => true
  end.

(** The own properties that a spread [{...d}] copies: the fields of an
    object, the indexed elements of an array, the indexed characters of a
    string, and nothing for the other values. *)
Definition entries (d : Data) : list (string * Data) :=
  match d with
  | DObj fields => fields
  | DArr items => imap (λ i x, (pretty i, x)) items
  | DStr s =>
      imap (λ i c, (pretty i, DStr (String c EmptyString)))
        (String.list_ascii_of_string s)
  | _ => []
  end.

(** [key in fields] *)
Definition hasKey (key : string) (fields : list (string * Data)) : bool :=
  existsb (λ kv, String.eqb key kv.1) fields.

(** [{...a, ...b}]: the keys of [a] in their order, each with the value [b]
    gives it when [b] has the key, followed by the keys that only [b] has.
    (Keys that are array indices, which an object lists first, do not occur
    in the option objects.) *)
Definition spreadData (a b : Data) : Data :=
  DObj (((λ kv, (kv.1, if hasKey kv.1 (entries b)
                       then field kv.1 (entries b) else kv.2)) <$> entries a)
        ++ List.filter (λ kv, negb (hasKey kv.1 (entries a))) (entries b)).

Module Settings.

(** The two option fields of [VK], [options] and [defaultsOptions]. *)
Record t := {
  options : Data;
  defaultsOptions : Data
}.

End Settings.

(** The [defaults] and [api] groups of the options a [VK] starts with. *)
Definition initialDefaults : Data :=
  DObj [("v", DStr "5.101"); ("lang", DStr "ru")].

Definition initialApi : Data :=
  DObj [("domain", DStr "vk.com"); ("protocol", DStr "https");
        ("apiSubdomain", DStr "api"); ("oauthSubdomain", DStr "oauth");
        ("methodPath", DStr "method/")].

(** [options] as the class initialises it. *)
Definition initialOptions : Data :=
  DObj [("mode", DStr "default");
        ("defaults", initialDefaults);
        ("api", initialApi);
        ("auth",
         DObj [("groupsMethod", DStr "groups.getById");
               ("usersMethod", DStr "users.get");
               ("appsMethod", DStr "apps.get");
               ("passwordGrantType", DStr "password");
               ("deviceId", DStr "")]);
        ("errors",
         DObj [("captchaError", DStr "need_captcha");
               ("captchaErrorCode", DNum 14);
               ("validationError", DStr "need_validation");
               ("redirectErrorCode", DNum 17)])].

(** The option fields before the constructor runs:
    [defaultsOptions = this.options.defaults]. *)
Definition initialSettings : Settings.t :=
  {| Settings.options := initialOptions;
     Settings.defaultsOptions := prop initialOptions "defaults" |}.

(** [setOptions(options)] *)
Definition setOptions (options : Data) (s : Settings.t) : Settings.t :=
  {| Settings.options := spreadData (Settings.options s) options;
     Settings.defaultsOptions := Settings.defaultsOptions s |}.

(** [defaults(options)] *)
Definition defaults (options : Data) (s : Settings.t) : Settings.t :=
  {| Settings.options := Settings.options s;
     Settings.defaultsOptions := spreadData (Settings.defaultsOptions s) options |}.

(** The option fields after [constructor(options)]:
    [this.setOptions(options); this.defaults(this.options.defaults)]. *)
Definition constructed (options : Data) : Settings.t :=
  let s := setOptions options initialSettings in
  defaults (prop (Settings.options s) "defaults") s.

(** The configuration [makeAPIQuery] gives to [axios.request]
    ([responseType] is always ['json']). *)
Record AxiosRequest := {
  url : string;
  method : Data;
  params : Data
}.

(** [extendedQuery(options, postfixPath, params, requestMethod)], up to the
    request it issues; reading [apiSubdomain] of a [null] or [undefined]
    [options.api] is a [TypeError]. *)
Definition extendedQuery (options : Data) (postfixPath : string) (params : Data)
    (requestMethod : Data) (s : Settings.t) : Checked AxiosRequest :=
  match prop (Settings.options s) "api" with
  | DNull | DUndef => Raised TypeError
  | apiOptions =>
      let api :=
        spreadData
          (spreadData apiOptions
             (DObj [("subdomain", prop apiOptions "apiSubdomain")]))
          options in
      let requestURL :=
        String.append (toStr (prop api "protocol"))
          (String.append "://"
             (String.append (toStr (prop api "subdomain"))
                (String.append "."
                   (String.append (toStr (prop api "domain"))
                      (String.append "/"
                         (String.append (toStr (prop api "methodPath"))
                            postfixPath)))))) in
      Passed {| url := requestURL; method := requestMethod;
                params := spreadData (Settings.defaultsOptions s) params |}
  end.

(** [call(methodName, params, requestMethod)] *)
Definition call (methodName : string) (params : Data) (requestMethod : Data)
    (s : Settings.t) : Checked AxiosRequest :=
  extendedQuery (DObj []) methodName params requestMethod s.

(** [post(methodName, params)] *)
Definition post (methodName : string) (params : Data) (s : Settings.t)
    : Checked AxiosRequest :=
  call methodName params (DStr "post") s.

(** Options for the examples: a user who overrides the API version only, and
    one who overrides the domain only. *)
Definition versionOnly : Data :=
  DObj [("defaults", DObj [("v", DStr "5.120")])].

Definition domainOnly : Data :=
  DObj [("api", DObj [("domain", DStr "vk.ru")])].

(** * Properties *)

(** ** Arrays *)

Lemma indexOf_range x array : indexOf x array = -1 ∨ 0 ≤ indexOf x array.
Proof.
  induction array as [|el rest IH]; cbn; [by left|].
  destruct (sameString x el); [right; lia|].
  destruct (Z.eqb_spec (indexOf x rest) (-1)); [by left|right; lia].
Qed.

Lemma indexOf_absent x array :
  indexOf x array = -1 ↔ ∀ el, el ∈ array → sameString x el = false.
Proof.
  induction array as [|el rest IH]; cbn.
  - split; [intros _ el H; inversion H|done].
  - destruct (sameString x el) eqn:Hel.
    + split; [lia|]. intros H. specialize (H el (list_elem_of_here _ _)). congruence.
    + destruct (Z.eqb_spec (indexOf x rest) (-1)) as [Hi|Hi].
      * split; [|done]. intros _ el' [->|Hin]%elem_of_cons; [done|]. by apply IH.
      * split.
        -- destruct (indexOf_range x rest); lia.
        -- intros H. exfalso. apply Hi, IH. intros el' Hin. apply H. by right.
Qed.

(** A name is never found in an array of queue objects. *)
Lemma indexOf_objects x (queue : list QueuedPlugin) :
  indexOf x (EObj <$> queue) = -1.
Proof.
  apply indexOf_absent. intros el (o & -> & _)%list_elem_of_fmap. done.
Qed.

Lemma indexOf_present x array : EStr x ∈ array → indexOf x array ≠ -1.
Proof.
  intros Hin Habs. rewrite indexOf_absent in Habs.
  specialize (Habs _ Hin). cbn in Habs. by rewrite String.eqb_refl in Habs.
Qed.

Lemma indexOf_pushed x array : (indexOf x (push (EStr x) array) =? -1) = false.
Proof.
  apply Z.eqb_neq, indexOf_present. unfold push. set_solver.
Qed.

(** ** Plugin registry *)

(** Unfolding the steps of a method body. *)
Ltac run_method := unfold bind, when, throw, read, ret, update; cbn.

(** The requirement check never changes the registry. *)
Lemma eachRequirement_state reqs vk : (eachRequirement reqs vk).2 = vk.
Proof.
  induction reqs as [|r rest IH]; [done|].
  cbn. run_method.
  destruct (hasPlugin r vk); [done|].
  by destruct (negb _).
Qed.

Lemma checkRequirements_state plugIn vk : (checkRequirements plugIn vk).2 = vk.
Proof.
  unfold checkRequirements.
  destruct (Plugin.requirements plugIn); [apply eachRequirement_state|done].
Qed.

Lemma eachRequirement_met reqs vk :
  (∀ r, r ∈ reqs → met r vk = true) → eachRequirement reqs vk = (Return tt, vk).
Proof.
  induction reqs as [|r rest IH]; intros Hall; [done|].
  cbn. run_method.
  pose proof (Hall r (list_elem_of_here _ _)) as Hr. unfold met in Hr.
  destruct (hasPlugin r vk); [apply IH; intros; apply Hall; by right|].
  cbn in Hr. rewrite Hr. apply IH; intros; apply Hall; by right.
Qed.

Lemma checkRequirements_met plugIn vk :
  requirementsMet plugIn vk → checkRequirements plugIn vk = (Return tt, vk).
Proof.
  intros Hmet. unfold checkRequirements.
  destruct (Plugin.requirements plugIn) as [reqs|] eqn:E; [|done].
  apply eachRequirement_met. intros r Hr. by eapply Hmet.
Qed.

Lemma checkRequirements_unmet plugIn r vk :
  Plugin.requirements plugIn = Some [r] → met r vk = false →
  checkRequirements plugIn vk =
    (Throw (Error (String.append "Plugin requires a "
              (String.append r " plugin. You should install this plugin!"))), vk).
Proof.
  unfold met, checkRequirements. intros -> [H1 H2]%orb_false_iff.
  cbn. run_method. by rewrite H1, H2.
Qed.

Lemma extend_rejects_name plugIn pluginOptions addInQueue vk :
  Plugin.name plugIn = "" ∨ Plugin.name plugIn = "defaultPlugin" →
  extend plugIn pluginOptions addInQueue vk
  = (Throw (Error "Plugin must have unique name"), vk).
Proof.
  intros H. unfold extend. run_method.
  by destruct H as [-> | ->].
Qed.

Lemma extend_rejects_installed plugIn pluginOptions addInQueue vk :
  Plugin.name plugIn ≠ "" → Plugin.name plugIn ≠ "defaultPlugin" →
  hasPlugin (Plugin.name plugIn) vk = true →
  extend plugIn pluginOptions addInQueue vk
  = (Throw (Error "This plugin already installed"), vk).
Proof.
  intros H1%String.eqb_neq H2%String.eqb_neq H3.
  unfold extend. run_method. rewrite H1, H2. cbn. by rewrite H3.
Qed.

(** Where the queue stands after the three queueing statements of a deferred
    [extend]: the search for [setupAfter] among the queue objects finds
    nothing, and the plugin is pushed unless it has a truthy [setupAfter]
    and its name is queued already. *)
Lemma extend_deferred plugIn pluginOptions vk :
  nameAccepted plugIn vk → requirementsMet plugIn vk →
  extend plugIn pluginOptions true vk
  = (Return None,
     if given (Plugin.setupAfter plugIn) && pluginInQueue plugIn vk
     then vk else enqueued plugIn pluginOptions vk).
Proof.
  intros (H1%String.eqb_neq & H2%String.eqb_neq & H3) Hreq.
  unfold extend. run_method. rewrite H1, H2. cbn.
  rewrite H3, checkRequirements_met by done.
  destruct (given (Plugin.setupAfter plugIn)) eqn:Hsa; cbn.
  - rewrite indexOf_objects. cbn.
    by destruct (pluginInQueue plugIn vk).
  - unfold pluginInQueue. cbn. by rewrite indexOf_pushed.
Qed.

Lemma extend_immediate plugIn pluginOptions vk :
  nameAccepted plugIn vk → requirementsMet plugIn vk →
  extend plugIn pluginOptions false vk
  = (Return (Some (OnEnable plugIn pluginOptions)),
     withQueuePromises
       (push (OnEnable plugIn pluginOptions) (queuePromises vk))
       (withPlugins (push (Plugin.name plugIn) (plugins vk)) vk)).
Proof.
  intros (H1%String.eqb_neq & H2%String.eqb_neq & H3) Hreq.
  unfold extend. run_method. rewrite H1, H2. cbn.
  rewrite H3, checkRequirements_met by done.
  by rewrite !andb_false_r.
Qed.

(** A registration that returns had an accepted name and met requirements. *)
Lemma extend_returns plugIn pluginOptions addInQueue vk0 r vk :
  extend plugIn pluginOptions addInQueue vk0 = (Return r, vk) →
  nameAccepted plugIn vk0 ∧ checkRequirements plugIn vk0 = (Return tt, vk0).
Proof.
  unfold extend, nameAccepted. run_method.
  destruct (String.eqb_spec (Plugin.name plugIn) ""); [done|].
  destruct (String.eqb_spec (Plugin.name plugIn) "defaultPlugin"); [done|]. cbn.
  destruct (hasPlugin (Plugin.name plugIn) vk0); [done|].
  pose proof (checkRequirements_state plugIn vk0) as Hst.
  destruct (checkRequirements plugIn vk0) as [[[]|e] vk1]; [|done].
  cbn in Hst. by subst vk1.
Qed.

(** A deferred registration that returns leaves the plugin's name in the
    queue and the installed list as it was. *)
Lemma extend_deferred_queues plugIn pluginOptions vk0 r vk :
  extend plugIn pluginOptions true vk0 = (Return r, vk) →
  pluginInQueue plugIn vk = true ∧ plugins vk = plugins vk0.
Proof.
  intros Hret.
  destruct (extend_returns _ _ _ _ _ _ Hret)
    as [(H1%String.eqb_neq & H2%String.eqb_neq & H3) Hreq].
  revert Hret. unfold extend. run_method. rewrite H1, H2. cbn.
  rewrite H3, Hreq.
  destruct (given (Plugin.setupAfter plugIn)); cbn.
  - rewrite indexOf_objects. cbn.
    destruct (pluginInQueue plugIn vk0) eqn:Hq; cbn; intros [= <- <-]; [done|].
    unfold pluginInQueue. cbn. by rewrite indexOf_pushed.
  - unfold pluginInQueue at 1. cbn. rewrite indexOf_pushed. cbn.
    intros [= <- <-]. unfold pluginInQueue. cbn. by rewrite indexOf_pushed.
Qed.

(** A registration that throws does so before it touches the registry. *)
Lemma extend_throws plugIn pluginOptions addInQueue vk0 e vk :
  extend plugIn pluginOptions addInQueue vk0 = (Throw e, vk) → vk = vk0.
Proof.
  unfold extend. run_method.
  destruct (String.eqb (Plugin.name plugIn) ""); [by intros [= _ <-]|].
  destruct (String.eqb (Plugin.name plugIn) "defaultPlugin"); [by intros [= _ <-]|].
  cbn. destruct (hasPlugin (Plugin.name plugIn) vk0); [by intros [= _ <-]|].
  pose proof (checkRequirements_state plugIn vk0) as Hst.
  destruct (checkRequirements plugIn vk0) as [[[]|e'] vk1]; cbn in Hst; subst vk1;
    [|by intros [= _ <-]].
  destruct (given (Plugin.setupAfter plugIn)), addInQueue; cbn;
    rewrite ?indexOf_objects; cbn;
    repeat match goal with |- context [if ?b then _ else _] => destruct b end;
    done.
Qed.

(** Every registration keeps the two queue arrays aligned, and so does
    [setup]: the names array of a facade built through its methods holds
    names only. *)
Lemma extend_aligned plugIn pluginOptions addInQueue vk :
  queueAligned vk → queueAligned (extend plugIn pluginOptions addInQueue vk).2.
Proof.
  intros Hal.
  destruct (extend plugIn pluginOptions addInQueue vk) as [[r|e] vk'] eqn:Hext.
  - destruct (extend_returns _ _ _ _ _ _ Hext) as [Hname Hreq].
    revert Hext. destruct Hname as (H1%String.eqb_neq & H2%String.eqb_neq & H3).
    unfold extend. run_method. rewrite H1, H2. cbn. rewrite H3, Hreq.
    destruct addInQueue; rewrite ?andb_false_r, ?andb_true_r; cbn.
    + destruct (given (Plugin.setupAfter plugIn)); cbn.
      * rewrite indexOf_objects. cbn.
        destruct (pluginInQueue plugIn vk); cbn; intros [= _ <-]; [done|].
        unfold queueAligned, push in *. cbn. by rewrite Hal, fmap_app.
      * unfold pluginInQueue. cbn. rewrite indexOf_pushed. cbn. intros [= _ <-].
        unfold queueAligned, push in *. cbn. by rewrite Hal, fmap_app.
    + by intros [= _ <-].
  - by rewrite (extend_throws _ _ _ _ _ _ Hext).
Qed.

(** With a truthy [setupAfter], a plugin whose name is not queued yet goes to
    the end of the queue, wherever the plugin it names stands. *)
Lemma extend_setupAfter_appends plugIn pluginOptions vk :
  nameAccepted plugIn vk → requirementsMet plugIn vk →
  given (Plugin.setupAfter plugIn) = true →
  pluginInQueue plugIn vk = false →
  pluginsQueue (extend plugIn pluginOptions true vk).2
  = pluginsQueue vk ++ [{| plugin := plugIn; options := pluginOptions;
                           name := Plugin.name plugIn |}].
Proof.
  intros Hn Hr Hsa Hq. rewrite extend_deferred by done. by rewrite Hsa, Hq.
Qed.

(** C1 (the code departs from it): with ["X"] queued at position 0,
    registering ["Y"] with [setupAfter = "X"] returns normally and leaves the
    queue as [X; Y]: ["Y"] is appended after ["X"], it does not take
    position 0. *)
Theorem C1_setupAfter_queued_target_appended :
  name <$> pluginsQueue queuedX = ["X"]
  ∧ (extend pluginY ∅ true queuedX).1 = Return None
  ∧ name <$> pluginsQueue (extend pluginY ∅ true queuedX).2 = ["X"; "Y"]
  ∧ pluginsQueueNames (extend pluginY ∅ true queuedX).2 = [EStr "X"; EStr "Y"].
Proof. by vm_compute. Qed.

(** C4, as stated, fails: a second registration under the name of a plugin
    that is queued but not installed returns normally and the queue grows. *)
Lemma C4_counterexample :
  pluginInQueue pluginX queuedX = true
  ∧ (extend pluginX ∅ true queuedX).1 = Return None
  ∧ name <$> pluginsQueue queuedX = ["X"]
  ∧ name <$> pluginsQueue (extend pluginX ∅ true queuedX).2 = ["X"; "X"].
Proof. by vm_compute. Qed.

(** C4 (amended): registering a plugin whose name is empty, is the reserved
    ["defaultPlugin"], or is the name of an installed plugin throws, and the
    facade (installed list and queue included) is exactly as before the
    call. *)
Theorem C4_rejected_name_leaves_registry plugIn pluginOptions addInQueue vk :
  Plugin.name plugIn = "" ∨ Plugin.name plugIn = "defaultPlugin"
  ∨ hasPlugin (Plugin.name plugIn) vk = true →
  ∃ e, extend plugIn pluginOptions addInQueue vk = (Throw e, vk).
Proof.
  intros H.
  destruct (decide (Plugin.name plugIn = "")) as [He|He].
  { eexists. apply extend_rejects_name. by left. }
  destruct (decide (Plugin.name plugIn = "defaultPlugin")) as [Hd|Hd].
  { eexists. apply extend_rejects_name. by right. }
  destruct H as [?|[?|Hi]]; [done..|].
  eexists. by apply extend_rejects_installed.
Qed.

(** The amended C4 on the registry where ["X"] is installed. *)
Lemma C4_witness :
  ∃ e, extend pluginX ∅ true installedX = (Throw e, installedX).
Proof.
  apply (C4_rejected_name_leaves_registry pluginX ∅ true installedX).
  right; right. reflexivity.
Defined.

Lemma hasPlugin_pushed x vk :
  hasPlugin x (withPlugins (push x (plugins vk)) vk) = true.
Proof.
  unfold hasPlugin. cbn. apply negb_true_iff, Z.eqb_neq, indexOf_present.
  unfold push. rewrite fmap_app. set_solver.
Qed.

(** A registration that fails on a missing requirement had its name
    accepted: the name checks come first and throw other errors. *)
Lemma extend_requirement_reported plugIn pluginOptions addInQueue vk x vk' :
  extend plugIn pluginOptions addInQueue vk
  = (Throw (Error (String.append "Plugin requires a "
              (String.append x " plugin. You should install this plugin!"))), vk') →
  nameAccepted plugIn vk.
Proof.
  intros Hext.
  destruct (decide (Plugin.name plugIn = "")) as [He|He].
  { rewrite extend_rejects_name in Hext by (by left). discriminate Hext. }
  destruct (decide (Plugin.name plugIn = "defaultPlugin")) as [Hd|Hd].
  { rewrite extend_rejects_name in Hext by (by right). discriminate Hext. }
  destruct (hasPlugin (Plugin.name plugIn) vk) eqn:Hi; [|done].
  rewrite extend_rejects_installed in Hext by done. discriminate Hext.
Qed.

(** C7: a plugin that declares [requirements: ["X"]] is rejected, with the
    registry left as it was, when ["X"] is neither installed nor queued (and
    it is the missing requirement that is reported when the name itself is
    accepted).  Once a deferred registration of ["X"] has returned, ["X"] is
    queued, no more installed than before, and the same registration (one
    whose name is accepted, as is any that failed on the missing requirement
    before) returns normally and registers the plugin: deferred, it returns
    [undefined] and the plugin is pushed at the end of both queue arrays
    (unless it has a truthy [setupAfter] and its name is queued already, when
    nothing changes), so that its name is queued afterwards and nothing is
    installed; immediate, it returns the promise of [onEnable], which is
    kept, and the plugin is installed. *)
Theorem C7_requirement_installed_or_queued :
  (∀ plugIn pluginOptions addInQueue vk x,
     Plugin.requirements plugIn = Some [x] →
     hasPlugin x vk = false →
     indexOf x (pluginsQueueNames vk) = -1 →
     ∃ e, extend plugIn pluginOptions addInQueue vk = (Throw e, vk)
          ∧ (nameAccepted plugIn vk →
             e = Error (String.append "Plugin requires a "
                   (String.append x " plugin. You should install this plugin!"))))
  ∧ (∀ pluginX optionsX vk0 r vk plugIn pluginOptions addInQueue,
     Plugin.requirements plugIn = Some [Plugin.name pluginX] →
     extend pluginX optionsX true vk0 = (Return r, vk) →
     nameAccepted plugIn vk
     ∨ (∃ vk0', extend plugIn pluginOptions addInQueue vk0
          = (Throw (Error (String.append "Plugin requires a "
                      (String.append (Plugin.name pluginX)
                         " plugin. You should install this plugin!"))), vk0')) →
     let registration := extend plugIn pluginOptions addInQueue vk in
     hasPlugin (Plugin.name pluginX) vk = hasPlugin (Plugin.name pluginX) vk0
     ∧ pluginInQueue pluginX vk = true
     ∧ registration
       = (if addInQueue
          then (Return None,
                if given (Plugin.setupAfter plugIn) && pluginInQueue plugIn vk
                then vk else enqueued plugIn pluginOptions vk)
          else (Return (Some (OnEnable plugIn pluginOptions)),
                withQueuePromises
                  (push (OnEnable plugIn pluginOptions) (queuePromises vk))
                  (withPlugins (push (Plugin.name plugIn) (plugins vk)) vk)))
     ∧ (addInQueue = true →
        pluginInQueue plugIn registration.2 = true
        ∧ plugins registration.2 = plugins vk
        ∧ queuePromises registration.2 = queuePromises vk)
     ∧ (addInQueue = false →
        hasPlugin (Plugin.name plugIn) registration.2 = true
        ∧ plugins registration.2 = plugins vk ++ [Plugin.name plugIn]
        ∧ queuePromises registration.2
          = queuePromises vk ++ [OnEnable plugIn pluginOptions]
        ∧ pluginsQueue registration.2 = pluginsQueue vk)).
Proof.
  split.
  - intros plugIn pluginOptions addInQueue vk x Hreq Hi Hq.
    destruct (decide (Plugin.name plugIn = "")) as [He|He].
    { eexists. split; [apply extend_rejects_name; by left|]. intros (? & ? & ?); congruence. }
    destruct (decide (Plugin.name plugIn = "defaultPlugin")) as [Hd|Hd].
    { eexists. split; [apply extend_rejects_name; by right|]. intros (? & ? & ?); congruence. }
    destruct (hasPlugin (Plugin.name plugIn) vk) eqn:Hn.
    { eexists. split; [by apply extend_rejects_installed|]. intros (? & ? & ?); congruence. }
    eexists. split; [|done].
    apply String.eqb_neq in He, Hd.
    unfold extend. run_method. rewrite He, Hd. cbn.
    rewrite Hn, (checkRequirements_unmet _ x); [done..|].
    unfold met. by rewrite Hi, Hq.
  - intros pluginX optionsX vk0 r vk plugIn pluginOptions addInQueue Hreq HX Hn.
    cbn zeta.
    apply extend_deferred_queues in HX as [HqX HpX].
    assert (nameAccepted plugIn vk) as Hname.
    { destruct Hn as [Hn|(vk0' & Hfailed)]; [done|].
      apply extend_requirement_reported in Hfailed as (H1 & H2 & H3).
      split_and!; [done..|]. unfold hasPlugin in *. by rewrite HpX. }
    split; [unfold hasPlugin; by rewrite HpX|]. split; [done|].
    assert (requirementsMet plugIn vk) as Hmet.
    { intros reqs x. rewrite Hreq. intros [= <-] ->%list_elem_of_singleton.
      unfold met. unfold pluginInQueue in HqX. rewrite HqX. apply orb_true_r. }
    destruct addInQueue.
    + rewrite extend_deferred by done. split_and!; [done| |by intros [=]].
      intros _. cbn [snd].
      destruct (given (Plugin.setupAfter plugIn)); cbn [andb].
      * destruct (pluginInQueue plugIn vk) eqn:Hq; [done|].
        split_and!; [|done..]. unfold pluginInQueue. cbn. by rewrite indexOf_pushed.
      * split_and!; [|done..]. unfold pluginInQueue. cbn. by rewrite indexOf_pushed.
    + rewrite extend_immediate by done. split_and!; [done|by intros [=]|].
      intros _. cbn [snd]. split_and!; [apply hasPlugin_pushed|done..].
Qed.

(** C7 on the fresh registry, where the registration of ["Y"] fails, and on
    the one where ["X"] is queued, where the same registration queues ["Y"]
    behind ["X"]. *)
Lemma C7_witness :
  (∃ e, extend pluginY ∅ true newVK = (Throw e, newVK))
  ∧ extend pluginY ∅ true queuedX = (Return None, enqueued pluginY ∅ queuedX)
  ∧ pluginInQueue pluginY (extend pluginY ∅ true queuedX).2 = true
  ∧ name <$> pluginsQueue (extend pluginY ∅ true queuedX).2 = ["X"; "Y"].
Proof.
  split.
  - destruct (proj1 C7_requirement_installed_or_queued
                pluginY ∅ true newVK "X" eq_refl eq_refl eq_refl) as (e & He & _).
    by exists e.
  - destruct (proj2 C7_requirement_installed_or_queued
                pluginX ∅ newVK None queuedX pluginY ∅ true eq_refl eq_refl)
      as (_ & _ & Hreg & Hdeferred & _).
    + right. exists newVK. reflexivity.
    + split; [exact Hreg|]. split; [exact (proj1 (Hdeferred eq_refl))|].
      rewrite Hreg. reflexivity.
Defined.

Lemma withPlugins_same vk : withPlugins (plugins vk) vk = vk.
Proof. by destruct vk. Qed.

Lemma enableAll_spec globalPluginOptions initers vk :
  enableAll globalPluginOptions initers vk
  = (enableCalls globalPluginOptions initers,
     withPlugins (plugins vk ++ enabledNames initers) vk).
Proof.
  revert vk. induction initers as [|q rest IH]; intros vk; cbn.
  - by rewrite app_nil_r, withPlugins_same.
  - rewrite IH. cbn. unfold push. by rewrite <- app_assoc.
Qed.

Lemma setup_spec globalPluginOptions vk :
  setup globalPluginOptions vk
  = (Return (match pluginsQueue vk with
             | [] => []
             | _ => enableCalls globalPluginOptions (pluginsQueue vk)
                    ++ queuePromises vk
             end),
     withPlugins (plugins vk ++ enabledNames (pluginsQueue vk)) vk).
Proof.
  unfold setup. destruct (pluginsQueue vk) as [|q rest] eqn:Hq.
  - cbn. by rewrite app_nil_r, withPlugins_same.
  - rewrite <- Hq at 2. rewrite enableAll_spec, Hq. done.
Qed.

Lemma setup_aligned globalPluginOptions vk :
  queueAligned vk → queueAligned (setup globalPluginOptions vk).2.
Proof. by rewrite setup_spec. Qed.

(** C10: [setup] leaves both queue arrays as they were and pushes the name
    of every queued plugin on the installed list; a second [setup] therefore
    calls [onEnable] of every queued plugin once more and pushes every name
    a second time. *)
Theorem C10_setup_keeps_the_queue globalPluginOptions globalPluginOptions' vk :
  let first := setup globalPluginOptions vk in
  let second := setup globalPluginOptions' first.2 in
  let awaited overrides :=
    match pluginsQueue vk with
    | [] => []
    | _ => enableCalls overrides (pluginsQueue vk) ++ queuePromises vk
    end in
  pluginsQueue first.2 = pluginsQueue vk
  ∧ pluginsQueueNames first.2 = pluginsQueueNames vk
  ∧ first.1 = Return (awaited globalPluginOptions)
  ∧ plugins first.2 = plugins vk ++ enabledNames (pluginsQueue vk)
  ∧ pluginsQueue second.2 = pluginsQueue vk
  ∧ second.1 = Return (awaited globalPluginOptions')
  ∧ plugins second.2
    = plugins vk ++ enabledNames (pluginsQueue vk)
      ++ enabledNames (pluginsQueue vk).
Proof.
  cbn zeta. rewrite !setup_spec. cbn. rewrite <- app_assoc. done.
Qed.

(** With ["X"] and ["Y"] queued, two calls of [setup] enable both twice. *)
Example setup_twice :
  let vk := (extend pluginY ∅ true queuedX).2 in
  (setup ∅ (setup ∅ vk).2).1
  = Return [OnEnable pluginX ∅; OnEnable pluginY ∅]
  ∧ plugins (setup ∅ (setup ∅ vk).2).2 = ["X"; "Y"; "X"; "Y"].
Proof. by vm_compute. Qed.

(** ** Exception handler registry *)

Lemma resolve_resolve v w p : resolve w (resolve v p) = resolve v p.
Proof. by destruct p. Qed.

Lemma find_append {A} (f : A → bool) l l' :
  List.find f (l ++ l')
  = match List.find f l with Some x => Some x | None => List.find f l' end.
Proof.
  induction l as [|x l IH]; [done|]. cbn. by destruct (f x).
Qed.

Lemma settle_app error p calls calls' :
  settle error p (calls ++ calls') = settle error (settle error p calls) calls'.
Proof.
  unfold settle. rewrite find_append.
  destruct (List.find (recoveredBy error) calls) as [c|]; [|done].
  destruct (List.find (recoveredBy error) calls'); [|done].
  by rewrite resolve_resolve.
Qed.

Lemma runHandlers_spec t hs i exceptionType error r :
  runHandlers t hs i exceptionType error r
  = let calls := untilHandled t hs i exceptionType error in
    {| handled := handled r || existsb (handledBy error) calls;
       promise := settle error (promise r) calls;
       invoked := invoked r ++ calls |}.
Proof.
  revert i r. induction hs as [|h rest IH]; intros i r; cbn.
  - destruct r; cbn. by rewrite orb_false_r, app_nil_r.
  - unfold handledBy at 1, settle, recoveredBy at 1. cbn.
    destruct (strictNe (h error exceptionType) error) eqn:Hne; cbn.
    + rewrite orb_true_r. by destruct (truthy (h error exceptionType)).
    + rewrite IH. cbn. by rewrite <- app_assoc.
Qed.

Lemma eachHandledType_spec types vk exceptionType error r :
  eachHandledType types vk exceptionType error r
  = let calls := expectedCalls types vk exceptionType error in
    {| handled := handled r || existsb (handledBy error) calls;
       promise := settle error (promise r) calls;
       invoked := invoked r ++ calls |}.
Proof.
  revert r. induction types as [|t rest IH]; intros r; cbn.
  - destruct r; cbn. by rewrite orb_false_r, app_nil_r.
  - rewrite IH. fold (matchesType t exceptionType).
    destruct (matchesType t exceptionType); cbn; [|done].
    rewrite runHandlers_spec. cbn.
    by rewrite existsb_app, orb_assoc, settle_app, app_assoc.
Qed.

Lemma recovered_is_handled error calls :
  existsb (handledBy error) calls = false →
  List.find (recoveredBy error) calls = None.
Proof.
  induction calls as [|c rest IH]; [done|]. cbn.
  intros [Hc Hrest]%orb_false_iff. unfold recoveredBy at 1.
  unfold handledBy in Hc. rewrite Hc. cbn. by apply IH.
Qed.

Lemma processHandlers_spec exceptionType error vk :
  let calls := expectedCalls (handlersExceptions vk) vk exceptionType error in
  processHandlers exceptionType error vk
  = {| handled := existsb (handledBy error) calls;
       promise := settled error calls;
       invoked := calls |}.
Proof.
  unfold processHandlers. rewrite eachHandledType_spec. cbn.
  unfold settled, settle.
  destruct (existsb _ _) eqn:Hh; cbn.
  - by destruct (List.find _ _).
  - by rewrite (recovered_is_handled _ _ Hh).
Qed.

Lemma strictNe_true a b : strictNe a b = true ↔ a ≠ b.
Proof.
  unfold strictNe. rewrite negb_true_iff, bool_decide_eq_false. done.
Qed.

Lemma strictNe_false a b : strictNe a b = false ↔ a = b.
Proof.
  unfold strictNe. rewrite negb_false_iff, bool_decide_eq_true. done.
Qed.

(** On the prototype chain means declared as an ancestor. *)
Lemma isPrototypeOf_derivesFrom c o : isPrototypeOf c o = true ↔ derivesFrom o c.
Proof.
  induction o as [n|n s IH]; cbn.
  - split; [done|intros H; inversion H].
  - rewrite orb_true_iff, bool_decide_eq_true, IH. split.
    + intros [->|H]; [constructor|by constructor].
    + intros H; inversion H; subst; [by left|by right].
Qed.

(** Within one handled type, a handler that handles the error is the last
    one called. *)
Lemma untilHandled_stops t hs i exceptionType error pre c post :
  untilHandled t hs i exceptionType error = pre ++ c :: post →
  handledBy error c = true → post = [].
Proof.
  revert i pre. induction hs as [|h rest IH]; intros i pre; cbn.
  - by destruct pre.
  - destruct pre as [|p pre]; cbn.
    + intros [= <- Hpost]. unfold handledBy. cbn. intros Hne.
      by rewrite Hne in Hpost.
    + intros [= _ Hrest] Hc.
      destruct (strictNe (h error exceptionType) error); [by destruct pre|].
      by eapply IH.
Qed.

Lemma untilHandled_past_unhandled t hs hs' i exceptionType error :
  (∀ g, g ∈ hs → g error exceptionType = error) →
  untilHandled t (hs ++ hs') i exceptionType error
  = untilHandled t hs i exceptionType error
    ++ untilHandled t hs' (i + length hs) exceptionType error.
Proof.
  revert i. induction hs as [|h rest IH]; intros i Hall; cbn.
  - by rewrite Nat.add_0_r.
  - assert (strictNe (h error exceptionType) error = false) as ->.
    { apply strictNe_false, Hall. by left. }
    rewrite IH by (intros; apply Hall; by right).
    by rewrite Nat.add_succ_comm.
Qed.

Lemma setAdd_elem x set : x ∈ setAdd x set.
Proof. unfold setAdd. case_bool_decide; set_solver. Qed.

Lemma find_recovered_none error (calls : list Invocation) :
  (∀ c, c ∈ calls → returned c ≠ error → truthy (returned c) = false) →
  List.find (recoveredBy error) calls = None.
Proof.
  induction calls as [|c rest IH]; intros Hall; [done|]. cbn.
  unfold recoveredBy at 1.
  destruct (strictNe (returned c) error) eqn:Hne; cbn.
  - rewrite (Hall c); [|by left|by apply strictNe_true].
    apply IH. intros; apply Hall; [by right|done].
  - apply IH. intros; apply Hall; [by right|done].
Qed.

Lemma existsb_handledBy error (calls : list Invocation) :
  existsb (handledBy error) calls = true ↔ ∃ c, c ∈ calls ∧ returned c ≠ error.
Proof.
  rewrite existsb_exists. unfold handledBy.
  split; intros (c & Hin & Hc); exists c.
  - by rewrite list_elem_of_In, <- strictNe_true.
  - by rewrite <- list_elem_of_In, strictNe_true.
Qed.

(** C3 (the code departs from it): resolution does not stop at the first
    handler that handles the error.  With a handler of the derived class that
    returns [undefined], which is not the error, and a handler of the base
    class registered after it, resolving an error of the derived class still
    calls the handler of the base class afterwards, and it is the result of
    that later handler that resolves the promise: the [break] leaves the loop
    over the handlers of one type only. *)
Theorem C3_resolution_does_not_stop :
  invoked (processHandlers DerivedError (VRef 0) twoHandlers)
  = [ {| handledType := DerivedError; position := 0; returned := VUndef |};
      {| handledType := BaseError; position := 0; returned := VStr "x" |} ]
  ∧ VUndef ≠ VRef 0
  ∧ promise (processHandlers DerivedError (VRef 0) twoHandlers)
    = Resolved (VStr "x").
Proof. by vm_compute. Qed.

(** What [processHandlers] does as it is written: the handlers of every
    matching handled type are called in registration order up to and
    including the first one that returns something else than the error it was
    given; the handlers after it in the same type are skipped, the following
    matching types are still visited.  The promise resolves with the first
    truthy result that is not the error; it rejects with the original error
    when every handler called returned that error. *)
Lemma processHandlers_resolution exceptionType error vk :
  let calls := expectedCalls (handlersExceptions vk) vk exceptionType error in
  invoked (processHandlers exceptionType error vk) = calls
  ∧ (∀ t pre c post,
       untilHandled t (exceptionHandlers t vk) 0 exceptionType error
       = pre ++ c :: post →
       returned c ≠ error → post = [])
  ∧ promise (processHandlers exceptionType error vk) = settled error calls
  ∧ (∀ pre c post,
       calls = pre ++ c :: post →
       returned c ≠ error → truthy (returned c) = true →
       (∀ p, p ∈ pre → returned p ≠ error → truthy (returned p) = false) →
       promise (processHandlers exceptionType error vk) = Resolved (returned c))
  ∧ ((∀ c, c ∈ calls → returned c = error) →
     promise (processHandlers exceptionType error vk) = Rejected error).
Proof.
  cbn zeta. rewrite processHandlers_spec. cbn. split_and!; [done| |done| |].
  - intros t pre c post Heq Hc%strictNe_true. by eapply untilHandled_stops.
  - intros pre c post -> Hne%strictNe_true Htr Hpre.
    unfold settled. rewrite find_append, (find_recovered_none _ _ Hpre). cbn.
    unfold recoveredBy at 1. by rewrite Hne, Htr.
  - intros Hall. unfold settled.
    rewrite find_recovered_none; [|by intros c ?%Hall].
    destruct (existsb _ _) eqn:Hex; [|done].
    apply existsb_handledBy in Hex as (c & Hin%Hall & Hc). done.
Qed.

(** The part of C3 that the code keeps: when every handler of every matching
    type hands the error back, the promise is rejected with that error. *)
Example processHandlers_rejects_unhandled :
  promise (processHandlers DerivedError (VRef 0)
             (handleException BaseError rethrow newVK).2)
  = Rejected (VRef 0).
Proof.
  apply (processHandlers_resolution DerivedError (VRef 0)
           (handleException BaseError rethrow newVK).2).
  intros c ->%list_elem_of_singleton. reflexivity.
Qed.

(** C9: when some handler called handled the error (it returned something
    else than the error) and every handler that did so returned a falsy
    value, the error counts as handled and the promise is left pending: it
    is neither resolved nor rejected.  A single matching handler that
    returns [undefined] is such a registration. *)
Theorem C9_falsy_results_leave_promise_pending exceptionType error vk :
  let r := processHandlers exceptionType error vk in
  (∃ c, c ∈ invoked r ∧ returned c ≠ error) →
  (∀ c, c ∈ invoked r → returned c ≠ error → truthy (returned c) = false) →
  handled r = true ∧ promise r = Pending.
Proof.
  cbn zeta. rewrite processHandlers_spec. cbn. intros Hex Hfalsy.
  apply existsb_handledBy in Hex. split; [done|].
  unfold settled. by rewrite find_recovered_none, Hex.
Qed.

(** C9 on a registry whose only handler returns [undefined]. *)
Lemma C9_witness :
  let r := processHandlers BaseError (VRef 0)
             (handleException BaseError swallow newVK).2 in
  handled r = true ∧ promise r = Pending.
Proof.
  apply (C9_falsy_results_leave_promise_pending BaseError (VRef 0)
           (handleException BaseError swallow newVK).2).
  - exists {| handledType := BaseError; position := 0; returned := VUndef |}.
    split; [apply list_elem_of_here|by intros [=]].
  - intros c ->%list_elem_of_singleton _. reflexivity.
Defined.

Lemma exceptionHandlers_handleException exceptionType handler vk :
  exceptionHandlers exceptionType (handleException exceptionType handler vk).2
  = exceptionHandlers exceptionType vk ++ [handler].
Proof.
  unfold exceptionHandlers at 1. cbn. by rewrite lookup_insert_eq.
Qed.

(** C6: let [Derived] be declared as a subtype of [Base] (or be [Base]
    itself).  After [handleException(Base, handler)], resolving an error
    whose type is [Derived] calls that handler, at the position
    [handleException] returned, provided the handlers registered for [Base]
    before it hand the error back; in a registry without earlier [Base]
    handlers that proviso is void. *)
Theorem C6_base_handler_called Base Derived handler error vk :
  derivesFrom Derived Base ∨ Base = Derived →
  (∀ g, g ∈ exceptionHandlers Base vk → g error Derived = error) →
  let registered := handleException Base handler vk in
  registered.1 = (Base, Z.of_nat (length (exceptionHandlers Base vk)))
  ∧ {| handledType := Base;
       position := length (exceptionHandlers Base vk);
       returned := handler error Derived |}
    ∈ invoked (processHandlers Derived error registered.2).
Proof.
  intros Hsub Hbefore. cbn zeta. split.
  - cbn. rewrite length_app. cbn. f_equal. lia.
  - rewrite processHandlers_spec. cbn [invoked].
    unfold expectedCalls. apply list_elem_of_In, in_flat_map.
    exists Base. split.
    { apply list_elem_of_In. cbn. apply setAdd_elem. }
    assert (matchesType Base Derived = true) as ->.
    { unfold matchesType. apply orb_true_iff.
      destruct Hsub as [H|H]; [left; by apply isPrototypeOf_derivesFrom|].
      right. by apply bool_decide_eq_true. }
    rewrite exceptionHandlers_handleException.
    rewrite untilHandled_past_unhandled by done.
    apply list_elem_of_In, elem_of_app. right. cbn. left.
Qed.

(** C6 for [Error] and a class derived from it, on a fresh registry. *)
Lemma C6_witness :
  {| handledType := BaseError; position := 0; returned := VStr "x" |}
  ∈ invoked (processHandlers DerivedError (VRef 0)
               (handleException BaseError recover newVK).2).
Proof.
  apply (C6_base_handler_called BaseError DerivedError recover (VRef 0) newVK).
  - left. constructor.
  - intros g Hg. inversion Hg.
Defined.

(** ** Composer stack *)

Lemma foldl_push {A} (acc stack : list A) :
  foldl (λ composer middleware, push middleware composer) acc stack = acc ++ stack.
Proof.
  revert acc. induction stack as [|m rest IH]; intros acc; cbn.
  - by rewrite app_nil_r.
  - rewrite IH. unfold push. by rewrite <- app_assoc.
Qed.

Lemma addComposer_absent composerName stack vk :
  getComposer composerName vk = None →
  getComposer composerName (addComposer composerName stack vk) = Some stack.
Proof.
  intros Hnone. unfold addComposer, hasComposer. rewrite Hnone. cbn.
  unfold getComposer. cbn. by rewrite lookup_insert_eq, foldl_push.
Qed.

Lemma addComposer_present composerName stack composer vk :
  getComposer composerName vk = Some composer →
  addComposer composerName stack vk = vk.
Proof.
  intros Hsome. unfold addComposer, hasComposer. by rewrite Hsome.
Qed.

Lemma use_present composerName middleware composer vk :
  getComposer composerName vk = Some composer →
  getComposer composerName (use composerName middleware vk)
  = Some (composer ++ [middleware]).
Proof.
  intros Hsome. unfold use. rewrite Hsome.
  unfold getComposer. cbn. by rewrite lookup_insert_eq.
Qed.

(** Once the composer exists, calls only append to it. *)
Lemma calls_on_present composerName calls composer vk :
  getComposer composerName vk = Some composer →
  getComposer composerName (foldl (callOn composerName) vk calls)
  = Some (composer ++ appended calls).
Proof.
  revert composer vk. induction calls as [|c rest IH]; intros composer vk Hsome; cbn.
  - by rewrite app_nil_r.
  - destruct c as [|m]; cbn.
    + rewrite (addComposer_present _ _ _ _ Hsome). by apply IH.
    + rewrite (IH (composer ++ [m])); [by rewrite <- app_assoc|].
      by apply use_present.
Qed.

(** C8: creating a composer is idempotent: a second [addComposer] changes
    nothing, so that the stack holds one composer under the identifier; any
    sequence of creations and appends on an identifier that had no composer
    leaves one pipeline holding the appended middlewares in append order (in
    particular three appends around two creations give three middlewares);
    [compose] on an identifier without composer throws and changes
    nothing. *)
Theorem C8_composer_created_once :
  (∀ composerName stack stack' vk,
     addComposer composerName stack' (addComposer composerName stack vk)
     = addComposer composerName stack vk)
  ∧ (∀ composerName stack stack' vk,
     getComposer composerName vk = None →
     size (composersStack
             (addComposer composerName stack' (addComposer composerName stack vk)))
     = S (size (composersStack vk)))
  ∧ (∀ composerName calls vk,
     getComposer composerName vk = None → calls ≠ [] →
     getComposer composerName (foldl (callOn composerName) vk calls)
     = Some (appended calls))
  ∧ (∀ composerName context vk,
     getComposer composerName vk = None →
     compose composerName context vk
     = (Throw (Error "You trying run composer which not created!"), vk)).
Proof.
  split_and!.
  - intros n stack stack' vk.
    destruct (getComposer n vk) as [composer|] eqn:Hc.
    + by rewrite !(addComposer_present _ _ _ _ Hc).
    + by erewrite addComposer_present; [|by apply addComposer_absent].
  - intros n stack stack' vk Hnone.
    erewrite addComposer_present; [|by apply addComposer_absent].
    unfold addComposer, hasComposer. rewrite Hnone. cbn.
    by apply map_size_insert_None.
  - intros n calls vk Hnone Hcalls.
    destruct calls as [|c rest]; [done|]. cbn.
    destruct c as [|m]; cbn.
    + erewrite calls_on_present; [|by apply addComposer_absent]. done.
    + rewrite (calls_on_present _ _ [m]); [done|].
      unfold use. rewrite Hnone. by apply addComposer_absent.
  - intros n context vk Hnone.
    unfold compose, hasComposer. run_method. by rewrite Hnone.
Qed.

(** C8 on the fresh facade, for the composer ["message"]. *)
Lemma C8_witness :
  size (composersStack (addComposer "message" [] (addComposer "message" [] newVK)))
  = 1%nat
  ∧ getComposer "message"
      (use "message" stopC
         (use "message" passB
            (addComposer "message" []
               (use "message" passA (addComposer "message" [] newVK)))))
    = Some [passA; passB; stopC]
  ∧ compose "message" (VStr "ctx") newVK
    = (Throw (Error "You trying run composer which not created!"), newVK).
Proof.
  destruct C8_composer_created_once as (_ & Hone & Hcalls & Hrun).
  split_and!.
  - apply (Hone "message" [] [] newVK). reflexivity.
  - apply (Hcalls "message"
             [Ensure; Append passA; Ensure; Append passB; Append stopC] newVK).
    + reflexivity.
    + by intros [=].
  - apply (Hrun "message" (VStr "ctx") newVK). reflexivity.
Defined.

(** A pipeline [a, b, c] stops at the first middleware that does not call
    [next]. *)
Example compose_three :
  (compose "message" (VStr "ctx")
     (foldl (callOn "message") newVK
        [Ensure; Append passA; Ensure; Append passB; Append stopC])).1
  = Return (VStr "ctx").
Proof. by vm_compute. Qed.

(** ** Response classifier *)

(** C2 (the code departs from it): on the body with the top-level captcha
    marker, [checkOnErrors] raises [CaptchaException], but [captchaSid] and
    [captchaImg] are read from [res.error], which is the string
    ["need_captcha"] here: both are [undefined], not ["1"] and ["url"]. *)
Theorem C2_captcha_marker_loses_sid :
  prop captchaBody "captcha_sid" = DStr "1"
  ∧ prop captchaBody "captcha_img" = DStr "url"
  ∧ checkOnErrors defaultErrors captchaBody
    = Raised (CaptchaException DUndef {| code := DUndef; errorType := DUndef |}
                DUndef DUndef).
Proof. by vm_compute. Qed.

(** Whenever it is the top-level marker that selects the captcha branch, the
    exception carries no [captchaSid] and no [captchaImg], whatever the body
    holds besides. *)
Lemma captcha_marker_never_carries_sid errors fields :
  field "error" fields = DStr (captchaError errors) →
  captchaError errors ≠ "" →
  ∃ m d, checkOnErrors errors (DObj fields)
         = Raised (CaptchaException m d DUndef DUndef).
Proof.
  intros Herr Hne%String.eqb_neq. unfold checkOnErrors. cbn. rewrite Herr. cbn.
  rewrite Hne, String.eqb_refl. cbn.
  destruct (extractError (DObj fields)) as [[c m] t]. eauto.
Qed.

(** C5, as stated, fails: a top-level [error_description] that is present
    but empty does not override the message of the nested error. *)
Lemma C5_counterexample :
  prop emptyDescriptionBody "error" = DObj [("message", DStr "m")]
  ∧ prop emptyDescriptionBody "error_description" = DStr ""
  ∧ checkOnErrors defaultErrors emptyDescriptionBody
    = Raised (APIException (DStr "m") {| code := DUndef; errorType := DStr "" |})
  ∧ DStr "m" ≠ DStr "".
Proof. by vm_compute. Qed.

(** C5 (amended): when the body holds a nested error object and a truthy
    top-level [error_description], the exception raised, whatever its class,
    carries that description as its message (and the nested error itself as
    its code). *)
Theorem C5_truthy_description_overrides errors res nested :
  prop res "error" = DObj nested →
  truthyData (prop res "error_description") = true →
  ∃ e, checkOnErrors errors res = Raised e
       ∧ messageOf e = prop res "error_description".
Proof.
  intros Herr Hdesc.
  destruct res as [| | | | |items|fields]; try discriminate Herr.
  unfold checkOnErrors, extractError. rewrite Herr, Hdesc. cbn.
  repeat match goal with
         | |- context [if ?b then _ else _] => destruct b
         | |- context [let '(_, _) := ?p in _] => destruct p
         end; eauto.
Qed.

(** The amended C5 on a body with a nested [error_msg] and a description. *)
Lemma C5_witness :
  ∃ e, checkOnErrors defaultErrors describedBody = Raised e
       ∧ messageOf e = DStr "d".
Proof.
  apply (C5_truthy_description_overrides defaultErrors describedBody
           [("error_msg", DStr "m")]); reflexivity.
Defined.

(** * Further properties *)

(** ** Plugin registry *)

Lemma indexOf_found x array : indexOf x array ≠ -1 ↔ EStr x ∈ array.
Proof.
  split; [|apply indexOf_present].
  induction array as [|el rest IH]; cbn; [done|].
  destruct (sameString x el) eqn:Hel.
  - intros _. destruct el as [s|o]; [|done].
    cbn in Hel. apply String.eqb_eq in Hel as ->. by left.
  - destruct (Z.eqb_spec (indexOf x rest) (-1)); [done|].
    intros _. right. by apply IH.
Qed.

Lemma hasPlugin_elem x vk : hasPlugin x vk = true ↔ x ∈ plugins vk.
Proof.
  unfold hasPlugin. rewrite negb_true_iff, Z.eqb_neq, indexOf_found.
  rewrite list_elem_of_fmap. split.
  - by intros (y & [= ->] & Hy).
  - intros Hx. by exists x.
Qed.

Lemma met_elem x vk :
  met x vk = true ↔ x ∈ plugins vk ∨ EStr x ∈ pluginsQueueNames vk.
Proof.
  unfold met. by rewrite orb_true_iff, hasPlugin_elem, negb_true_iff,
    Z.eqb_neq, indexOf_found.
Qed.

(** The requirement loop stops at the first requirement that is not met. *)
Lemma eachRequirement_first_unmet pre r post vk :
  (∀ x, x ∈ pre → met x vk = true) → met r vk = false →
  eachRequirement (pre ++ r :: post) vk = (Throw (requiresError r), vk).
Proof.
  intros Hpre [H1 H2]%orb_false_iff.
  induction pre as [|x pre IH]; cbn; run_method.
  - by rewrite H1, H2.
  - pose proof (Hpre x (list_elem_of_here _ _)) as Hx. unfold met in Hx.
    destruct (hasPlugin x vk); [apply IH; intros; apply Hpre; by right|].
    cbn in Hx. rewrite Hx. apply IH; intros; apply Hpre; by right.
Qed.

(** What the requirement loop returns tells which requirements are met. *)
Lemma eachRequirement_outcome reqs vk :
  (eachRequirement reqs vk = (Return tt, vk) ∧ ∀ r, r ∈ reqs → met r vk = true)
  ∨ (∃ pre r post, reqs = pre ++ r :: post
       ∧ (∀ x, x ∈ pre → met x vk = true) ∧ met r vk = false
       ∧ eachRequirement reqs vk = (Throw (requiresError r), vk)).
Proof.
  induction reqs as [|x rest IH].
  - left. split; [done|]. intros r Hr. inversion Hr.
  - destruct (met x vk) eqn:Hx.
    + destruct IH as [[Hret Hall]|(pre & r & post & -> & Hpre & Hr & Hthrow)].
      * left. split.
        -- apply eachRequirement_met. intros r [->|Hr]%elem_of_cons; auto.
        -- intros r [->|Hr]%elem_of_cons; auto.
      * right. exists (x :: pre), r, post. split_and!; [done| |done|].
        -- intros y [->|Hy]%elem_of_cons; auto.
        -- apply (eachRequirement_first_unmet (x :: pre)); [|done].
           intros y [->|Hy]%elem_of_cons; auto.
    + right. exists [], x, rest. split_and!; [done| |done|].
      * intros y Hy. inversion Hy.
      * apply (eachRequirement_first_unmet []); [|done].
        intros y Hy. inversion Hy.
Qed.

Lemma checkRequirements_returns plugIn vk :
  checkRequirements plugIn vk = (Return tt, vk) → requirementsMet plugIn vk.
Proof.
  unfold checkRequirements, requirementsMet. intros Hret reqs r Hreqs Hr.
  rewrite Hreqs in Hret.
  destruct (eachRequirement_outcome reqs vk)
    as [[_ Hall]|(pre & x & post & _ & _ & _ & Hthrow)]; [by apply Hall|].
  rewrite Hthrow in Hret. discriminate.
Qed.

(** The four ways a registration can end. *)
Lemma extend_outcome plugIn pluginOptions addInQueue vk :
  (∃ e, extend plugIn pluginOptions addInQueue vk = (Throw e, vk))
  ∨ (addInQueue = true
     ∧ (given (Plugin.setupAfter plugIn) && pluginInQueue plugIn vk) = true
     ∧ extend plugIn pluginOptions addInQueue vk = (Return None, vk))
  ∨ (addInQueue = true
     ∧ extend plugIn pluginOptions addInQueue vk
       = (Return None, enqueued plugIn pluginOptions vk))
  ∨ (addInQueue = false
     ∧ extend plugIn pluginOptions addInQueue vk
       = (Return (Some (OnEnable plugIn pluginOptions)),
          installedNow plugIn pluginOptions vk)).
Proof.
  destruct (extend plugIn pluginOptions addInQueue vk) as [[r|e] vk'] eqn:Hext.
  - destruct (extend_returns _ _ _ _ _ _ Hext) as [Hname Hreq%checkRequirements_returns].
    destruct addInQueue.
    + rewrite extend_deferred in Hext by done. rewrite <- Hext.
      destruct (given _ && pluginInQueue _ _) eqn:Hig; [right; left|right; right; left]; done.
    + rewrite extend_immediate in Hext by done. rewrite <- Hext.
      right; right; right. done.
  - left. exists e. by rewrite (extend_throws _ _ _ _ _ _ Hext).
Qed.

Lemma extend_rejects_requirement plugIn pluginOptions addInQueue vk e :
  nameAccepted plugIn vk → checkRequirements plugIn vk = (Throw e, vk) →
  extend plugIn pluginOptions addInQueue vk = (Throw e, vk).
Proof.
  intros (H1%String.eqb_neq & H2%String.eqb_neq & H3) Hreq.
  unfold extend. run_method. rewrite H1, H2. cbn. by rewrite H3, Hreq.
Qed.

(** X1: a registration that throws leaves the whole facade as it was, and
    it throws for one of three reasons only: the name is empty or
    ["defaultPlugin"], the name is installed, or some declared requirement is
    neither installed nor queued. *)
Theorem X1_failed_registration_changes_nothing
    plugIn pluginOptions addInQueue vk e vk' :
  extend plugIn pluginOptions addInQueue vk = (Throw e, vk') →
  vk' = vk
  ∧ ((e = Error "Plugin must have unique name"
      ∧ (Plugin.name plugIn = "" ∨ Plugin.name plugIn = "defaultPlugin"))
     ∨ (e = Error "This plugin already installed"
        ∧ Plugin.name plugIn ∈ plugins vk)
     ∨ (∃ reqs r, Plugin.requirements plugIn = Some reqs ∧ r ∈ reqs
          ∧ (r ∉ plugins vk) ∧ (EStr r ∉ pluginsQueueNames vk)
          ∧ e = requiresError r)).
Proof.
  intros Hext. pose proof (extend_throws _ _ _ _ _ _ Hext) as ->.
  split; [done|].
  destruct (decide (Plugin.name plugIn = "")) as [He|He].
  { rewrite extend_rejects_name in Hext by (by left).
    left. split; [congruence|by left]. }
  destruct (decide (Plugin.name plugIn = "defaultPlugin")) as [Hd|Hd].
  { rewrite extend_rejects_name in Hext by (by right).
    left. split; [congruence|by right]. }
  destruct (hasPlugin (Plugin.name plugIn) vk) eqn:Hi.
  { rewrite extend_rejects_installed in Hext by done.
    right; left. split; [congruence|by apply hasPlugin_elem]. }
  right; right.
  assert (nameAccepted plugIn vk) as Hname by done.
  unfold checkRequirements in *.
  destruct (Plugin.requirements plugIn) as [reqs|] eqn:Hreqs.
  - destruct (eachRequirement_outcome reqs vk)
      as [[_ Hall]|(pre & r & post & -> & _ & Hr & Hthrow)].
    + assert (requirementsMet plugIn vk) as Hmet.
      { intros reqs' r. rewrite Hreqs. intros [= <-]. apply Hall. }
      destruct addInQueue.
      * by rewrite extend_deferred in Hext.
      * by rewrite extend_immediate in Hext.
    + exists (pre ++ r :: post), r.
      assert (¬ (r ∈ plugins vk ∨ EStr r ∈ pluginsQueueNames vk)) as Hnot.
      { rewrite <- met_elem. by rewrite Hr. }
      split_and!; [done|set_solver|tauto|tauto|].
      rewrite (extend_rejects_requirement _ _ _ _ (requiresError r)) in Hext;
        [congruence|done|].
      unfold checkRequirements. by rewrite Hreqs.
  - assert (requirementsMet plugIn vk) as Hmet.
    { intros reqs' r. by rewrite Hreqs. }
    destruct addInQueue.
    + by rewrite extend_deferred in Hext.
    + by rewrite extend_immediate in Hext.
Qed.

(** X1 on the registration of ["Y"], which requires ["X"], in a fresh
    facade. *)
Lemma X1_witness :
  (extend pluginY ∅ true newVK).2 = newVK.
Proof.
  apply (X1_failed_registration_changes_nothing pluginY ∅ true newVK
           (requiresError "X") (extend pluginY ∅ true newVK).2).
  reflexivity.
Defined.

(** X2: requirements are checked in the order they are declared, and the
    error names the first one that is neither installed nor queued, whatever
    follows it in the list. *)
Theorem X2_first_missing_requirement_reported
    plugIn pluginOptions addInQueue vk pre r post :
  nameAccepted plugIn vk →
  Plugin.requirements plugIn = Some (pre ++ r :: post) →
  (∀ x, x ∈ pre → x ∈ plugins vk ∨ EStr x ∈ pluginsQueueNames vk) →
  r ∉ plugins vk → EStr r ∉ pluginsQueueNames vk →
  extend plugIn pluginOptions addInQueue vk = (Throw (requiresError r), vk).
Proof.
  intros Hname Hreqs Hpre Hr1 Hr2.
  apply extend_rejects_requirement; [done|].
  unfold checkRequirements. rewrite Hreqs.
  apply eachRequirement_first_unmet.
  - intros x Hx. by apply met_elem, Hpre.
  - apply not_true_is_false. rewrite met_elem. tauto.
Qed.

(** X2 for ["Z"], which requires ["X"], ["W"] and ["V"], with only ["X"]
    queued: it is ["W"] that is reported. *)
Lemma X2_witness :
  extend pluginZ ∅ true queuedX = (Throw (requiresError "W"), queuedX).
Proof.
  apply (X2_first_missing_requirement_reported pluginZ ∅ true queuedX
           ["X"] "W" ["V"]).
  - split; [by intros [=]|split; [by intros [=]|reflexivity]].
  - reflexivity.
  - intros x ->%list_elem_of_singleton. right. apply list_elem_of_here.
  - intros H. inversion H.
  - intros H. apply list_elem_of_singleton in H. discriminate H.
Defined.

(** X3: an immediate registration ([addInQueue = false]) that passes the
    checks marks the plugin installed, records the promise of [onEnable] and
    leaves both queue arrays alone, whatever [setupAfter] says; any later
    registration under the same name then throws. *)
Theorem X3_immediate_registration_installs plugIn pluginOptions vk :
  nameAccepted plugIn vk → requirementsMet plugIn vk →
  let after := (extend plugIn pluginOptions false vk).2 in
  (extend plugIn pluginOptions false vk).1
  = Return (Some (OnEnable plugIn pluginOptions))
  ∧ plugins after = plugins vk ++ [Plugin.name plugIn]
  ∧ queuePromises after = queuePromises vk ++ [OnEnable plugIn pluginOptions]
  ∧ pluginsQueue after = pluginsQueue vk
  ∧ pluginsQueueNames after = pluginsQueueNames vk
  ∧ ∀ plugIn' pluginOptions' addInQueue',
      Plugin.name plugIn' = Plugin.name plugIn →
      extend plugIn' pluginOptions' addInQueue' after
      = (Throw (Error "This plugin already installed"), after).
Proof.
  intros Hname Hreq. cbn zeta. rewrite extend_immediate by done. cbn.
  split_and!; [done..|].
  intros plugIn' pluginOptions' addInQueue' Heq.
  destruct Hname as (H1 & H2 & _).
  apply extend_rejects_installed; rewrite ?Heq; [done..|].
  apply hasPlugin_elem. cbn. unfold push. set_solver.
Qed.

(** X3 for ["X"] on a fresh facade. *)
Lemma X3_witness :
  plugins installedX = ["X"]
  ∧ extend pluginX verbose true installedX
    = (Throw (Error "This plugin already installed"), installedX).
Proof.
  assert (nameAccepted pluginX newVK) as Hname.
  { split; [by intros [=]|split; [by intros [=]|reflexivity]]. }
  assert (requirementsMet pluginX newVK) as Hreq.
  { intros reqs r Hreqs. discriminate Hreqs. }
  destruct (X3_immediate_registration_installs pluginX ∅ newVK Hname Hreq)
    as (_ & Hplugins & _ & _ & _ & Hagain).
  split; [exact Hplugins|].
  apply (Hagain pluginX verbose true). reflexivity.
Defined.

(** X4: a deferred registration never installs and never enables: whatever
    its outcome, the installed list and the kept promises are untouched and
    no promise is returned. *)
Theorem X4_deferred_registration_enables_nothing plugIn pluginOptions vk :
  plugins (extend plugIn pluginOptions true vk).2 = plugins vk
  ∧ queuePromises (extend plugIn pluginOptions true vk).2 = queuePromises vk
  ∧ ((extend plugIn pluginOptions true vk).1 = Return None
     ∨ ∃ e, (extend plugIn pluginOptions true vk).1 = Throw e).
Proof.
  destruct (extend_outcome plugIn pluginOptions true vk)
    as [(e & ->)|[(_ & _ & ->)|[(_ & ->)|([=] & _)]]]; cbn; eauto.
Qed.

(** The soundness of the queue is kept by every registration and by
    [setup]. *)
Lemma enqueued_sound plugIn pluginOptions vk :
  nameAccepted plugIn vk → queueAligned vk → Forall wellNamed (pluginsQueue vk) →
  queueAligned (enqueued plugIn pluginOptions vk)
  ∧ Forall wellNamed (pluginsQueue (enqueued plugIn pluginOptions vk)).
Proof.
  intros (H1 & H2 & _) Hal Hwn. split.
  - unfold queueAligned, enqueued, push in *. cbn. by rewrite Hal, fmap_app.
  - cbn. unfold push. apply Forall_app. split; [done|].
    apply Forall_singleton. done.
Qed.

Lemma afterCall_sound vk c :
  queueAligned vk ∧ Forall wellNamed (pluginsQueue vk) →
  queueAligned (afterCall vk c) ∧ Forall wellNamed (pluginsQueue (afterCall vk c)).
Proof.
  intros [Hal Hwn]. destruct c as [plugIn pluginOptions addInQueue|g]; cbn.
  - destruct (extend plugIn pluginOptions addInQueue vk) as [[r|e] vk'] eqn:Hext.
    + destruct (extend_returns _ _ _ _ _ _ Hext) as [Hname _].
      destruct (extend_outcome plugIn pluginOptions addInQueue vk)
        as [(e & He)|[(_ & _ & He)|[(_ & He)|(_ & He)]]];
        rewrite He in Hext; injection Hext as <- <-; cbn; try done.
      by apply enqueued_sound.
    + by rewrite (extend_throws _ _ _ _ _ _ Hext).
  - by rewrite setup_spec.
Qed.

(** X5: on a facade driven from its initial state by any sequence of
    [extend] and [setup] calls (failed ones included), the two queue arrays
    stay aligned: [pluginsQueueNames] holds exactly the names of the objects
    of [pluginsQueue], in order (so it never holds an object); and every
    queue object carries the name of its plugin, which is neither empty nor
    ["defaultPlugin"]. *)
Theorem X5_queue_arrays_stay_aligned calls :
  let vk := foldl afterCall newVK calls in
  pluginsQueueNames vk = (λ q, EStr (name q)) <$> pluginsQueue vk
  ∧ Forall wellNamed (pluginsQueue vk)
  ∧ ∀ plugIn, pluginInQueue plugIn vk = true
              ↔ Plugin.name plugIn ∈ name <$> pluginsQueue vk.
Proof.
  cbn zeta.
  assert (queueAligned (foldl afterCall newVK calls)
          ∧ Forall wellNamed (pluginsQueue (foldl afterCall newVK calls)))
    as [Hal Hwn].
  { assert (queueAligned newVK ∧ Forall wellNamed (pluginsQueue newVK)) as Hinit.
    { split; [done|constructor]. }
    revert Hinit. generalize newVK.
    induction calls as [|c calls IH]; intros vk Hvk; [done|].
    cbn. by apply IH, afterCall_sound. }
  split_and!; [done..|].
  intros plugIn. unfold pluginInQueue.
  rewrite negb_true_iff, Z.eqb_neq, indexOf_found, Hal, !list_elem_of_fmap.
  split.
  - intros (q & [= Hq] & Hin). by exists q.
  - intros (q & Hq & Hin). exists q. by rewrite Hq.
Qed.

(** X6: no call of [extend] or [setup] ever removes or reorders anything:
    the queue arrays, the installed list and the kept promises after the call
    extend those before it. *)
Theorem X6_registry_only_grows vk c :
  pluginsQueue vk `prefix_of` pluginsQueue (afterCall vk c)
  ∧ pluginsQueueNames vk `prefix_of` pluginsQueueNames (afterCall vk c)
  ∧ plugins vk `prefix_of` plugins (afterCall vk c)
  ∧ queuePromises vk `prefix_of` queuePromises (afterCall vk c).
Proof.
  destruct c as [plugIn pluginOptions addInQueue|g]; cbn.
  - destruct (extend_outcome plugIn pluginOptions addInQueue vk)
      as [(e & ->)|[(_ & _ & ->)|[(_ & ->)|(_ & ->)]]]; cbn;
      unfold push; split_and!; try done; by apply prefix_app_r.
  - rewrite setup_spec. cbn. split_and!; try done. by apply prefix_app_r.
Qed.

(** X7: [setup] returns at once when the queue is empty, and then awaits
    nothing: the promise of a plugin that was enabled immediately is kept in
    [queuePromises] but is not among the awaited ones. *)
Theorem X7_setup_on_empty_queue_awaits_nothing
    plugIn pluginOptions globalPluginOptions vk :
  pluginsQueue vk = [] →
  nameAccepted plugIn vk → requirementsMet plugIn vk →
  let after := (extend plugIn pluginOptions false vk).2 in
  OnEnable plugIn pluginOptions ∈ queuePromises after
  ∧ setup globalPluginOptions after = (Return [], after).
Proof.
  intros Hq Hname Hreq. cbn zeta. rewrite extend_immediate by done.
  split.
  - cbn. unfold push. set_solver.
  - rewrite setup_spec. cbn. rewrite Hq. cbn.
    by rewrite app_nil_r.
Qed.

(** X7 for ["X"] enabled immediately on a fresh facade. *)
Lemma X7_witness :
  queuePromises installedX = [OnEnable pluginX ∅]
  ∧ setup ∅ installedX = (Return [], installedX).
Proof.
  split; [reflexivity|].
  apply (X7_setup_on_empty_queue_awaits_nothing pluginX ∅ ∅ newVK).
  - reflexivity.
  - split; [by intros [=]|split; [by intros [=]|reflexivity]].
  - intros reqs r Hreqs. discriminate Hreqs.
Defined.

(** X8: [setup] marks every queued plugin installed and keeps what was
    installed; registering a queued plugin again after [setup] throws. *)
Theorem X8_setup_installs_the_queue globalPluginOptions vk q :
  q ∈ pluginsQueue vk →
  let after := (setup globalPluginOptions vk).2 in
  hasPlugin (Plugin.name (plugin q)) after = true
  ∧ (∀ x, hasPlugin x vk = true → hasPlugin x after = true)
  ∧ (Plugin.name (plugin q) ≠ "" → Plugin.name (plugin q) ≠ "defaultPlugin" →
     ∀ pluginOptions addInQueue,
       extend (plugin q) pluginOptions addInQueue after
       = (Throw (Error "This plugin already installed"), after)).
Proof.
  intros Hq. cbn zeta. rewrite setup_spec. cbn.
  assert (hasPlugin (Plugin.name (plugin q))
            (withPlugins (plugins vk ++ enabledNames (pluginsQueue vk)) vk) = true)
    as Hinst.
  { apply hasPlugin_elem. cbn. apply elem_of_app. right.
    unfold enabledNames. apply list_elem_of_fmap. by exists q. }
  split_and!; [done| |].
  - intros x Hx%hasPlugin_elem. apply hasPlugin_elem. cbn. set_solver.
  - intros H1 H2 pluginOptions addInQueue. by apply extend_rejects_installed.
Qed.

(** X8 for ["X"] queued on a fresh facade. *)
Lemma X8_witness :
  hasPlugin "X" (setup ∅ queuedX).2 = true
  ∧ extend pluginX ∅ true (setup ∅ queuedX).2
    = (Throw (Error "This plugin already installed"), (setup ∅ queuedX).2).
Proof.
  destruct (X8_setup_installs_the_queue ∅ queuedX
              {| plugin := pluginX; options := ∅; name := "X" |})
    as (Hinst & _ & Hagain).
  - apply list_elem_of_here.
  - split; [exact Hinst|].
    apply (Hagain ltac:(by intros [=]) ltac:(by intros [=]) ∅ true).
Defined.

(** X9: [setup] enables the plugin at position [i] of the queue with the
    options it was registered with, overridden key by key by
    [globalPluginOptions[name]]; without an entry under its name the plugin
    gets its registration options as they are. *)
Theorem X9_setup_overrides_options_by_key globalPluginOptions vk i q :
  pluginsQueue vk !! i = Some q →
  ∃ awaited enabledWith,
    (setup globalPluginOptions vk).1 = Return awaited
    ∧ awaited !! i = Some (OnEnable (plugin q) enabledWith)
    ∧ (∀ overrides key,
         globalPluginOptions !! Plugin.name (plugin q) = Some overrides →
         enabledWith !! key
         = match overrides !! key with
           | Some v => Some v
           | None => options q !! key
           end)
    ∧ (globalPluginOptions !! Plugin.name (plugin q) = None →
       enabledWith = options q).
Proof.
  intros Hi. rewrite setup_spec. cbn.
  exists (enableCalls globalPluginOptions (pluginsQueue vk) ++ queuePromises vk).
  eexists. split_and!.
  - by destruct (pluginsQueue vk).
  - rewrite lookup_app_l.
    + unfold enableCalls. rewrite list_lookup_fmap, Hi. done.
    + unfold enableCalls. rewrite length_fmap. by eapply lookup_lt_Some.
  - intros overrides key ->. cbn. unfold spread.
    destruct (overrides !! key) as [v|] eqn:Hk.
    + by apply lookup_union_Some_l.
    + by rewrite lookup_union_r.
  - intros ->. cbn. unfold spread. by rewrite (left_id ∅ (∪)).
Qed.

(** X9 for ["X"] registered with [verbose] and overridden with [quiet]. *)
Lemma X9_witness :
  ∃ awaited enabledWith,
    (setup {[ "X" := quiet ]} (extend pluginX verbose true newVK).2).1
    = Return awaited
    ∧ awaited !! 0%nat = Some (OnEnable pluginX enabledWith)
    ∧ enabledWith !! "verbose" = Some (VBool false).
Proof.
  destruct (X9_setup_overrides_options_by_key {[ "X" := quiet ]}
              (extend pluginX verbose true newVK).2 0%nat
              {| plugin := pluginX; options := verbose; name := "X" |} eq_refl)
    as (awaited & enabledWith & Hret & Hi & Hover & _).
  exists awaited, enabledWith. split_and!; [exact Hret|exact Hi|].
  rewrite (Hover quiet "verbose" eq_refl). reflexivity.
Defined.

(** X10: a deferred registration with a truthy [setupAfter] under a name
    that is already queued is silently ignored: it returns normally and the
    facade is unchanged. *)
Theorem X10_queued_name_with_setupAfter_ignored plugIn pluginOptions vk :
  nameAccepted plugIn vk → requirementsMet plugIn vk →
  given (Plugin.setupAfter plugIn) = true →
  EStr (Plugin.name plugIn) ∈ pluginsQueueNames vk →
  extend plugIn pluginOptions true vk = (Return None, vk).
Proof.
  intros Hname Hreq Hsa Hq. rewrite extend_deferred by done.
  assert (pluginInQueue plugIn vk = true) as ->; [|by rewrite Hsa].
  unfold pluginInQueue. by apply negb_true_iff, Z.eqb_neq, indexOf_found.
Qed.

(** X10 for a second registration of ["Y"] once ["X"] and ["Y"] are
    queued. *)
Lemma X10_witness :
  extend pluginY verbose true (extend pluginY ∅ true queuedX).2
  = (Return None, (extend pluginY ∅ true queuedX).2).
Proof.
  apply (X10_queued_name_with_setupAfter_ignored pluginY verbose
           (extend pluginY ∅ true queuedX).2).
  - split; [by intros [=]|split; [by intros [=]|reflexivity]].
  - intros reqs r [= <-] ->%list_elem_of_singleton. reflexivity.
  - reflexivity.
  - right. left.
Defined.

(** ** Exception handler registry *)

Lemma filterIndex_before {A} position i (array : list A) :
  position < i → filterIndex position i array = array.
Proof.
  revert i. induction array as [|x rest IH]; intros i Hlt; cbn; [done|].
  destruct (Z.eqb_spec i position); [lia|]. cbn. rewrite IH by lia. done.
Qed.

(** Filtering by index drops the element at that index, if there is one. *)
Lemma filterIndex_spec {A} position i (array : list A) :
  i ≤ position →
  filterIndex position i array
  = take (Z.to_nat (position - i)) array
    ++ drop (S (Z.to_nat (position - i))) array.
Proof.
  revert i. induction array as [|x rest IH]; intros i Hle; cbn.
  - by destruct (Z.to_nat (position - i)).
  - destruct (Z.eqb_spec i position) as [->|Hne]; cbn.
    + rewrite Z.sub_diag. cbn. rewrite drop_0.
      apply filterIndex_before. lia.
    + rewrite IH by lia.
      replace (Z.to_nat (position - i)) with (S (Z.to_nat (position - (i + 1))))
        by lia.
      done.
Qed.

Lemma exceptionHandlers_insert t t' hs vk types :
  exceptionHandlers t' (withHandlers (<[t := hs]> (handlers vk)) types vk)
  = if decide (t = t') then hs else exceptionHandlers t' vk.
Proof.
  unfold exceptionHandlers. cbn. rewrite lookup_insert.
  by destruct (decide (t = t')).
Qed.

(** X11: the position returned by [handleException] is the index of the new
    handler in the list of its type; the handlers registered before keep
    their indices, the lists of the other types are untouched, and the type
    is among the handled ones. *)
Theorem X11_handleException_position exceptionType handler vk :
  let registered := handleException exceptionType handler vk in
  registered.1.1 = exceptionType
  ∧ 0 ≤ registered.1.2
  ∧ exceptionHandlers exceptionType registered.2 !! Z.to_nat registered.1.2
    = Some handler
  ∧ (∀ i earlier, exceptionHandlers exceptionType vk !! i = Some earlier →
       exceptionHandlers exceptionType registered.2 !! i = Some earlier)
  ∧ (∀ t, t ≠ exceptionType →
       exceptionHandlers t registered.2 = exceptionHandlers t vk)
  ∧ exceptionType ∈ handlersExceptions registered.2.
Proof.
  cbn zeta. cbn [fst snd handleException].
  rewrite length_app. cbn [length].
  split_and!; [done|lia| | | |].
  - rewrite exceptionHandlers_insert, decide_True by done.
    replace (Z.to_nat _) with (length (exceptionHandlers exceptionType vk)) by lia.
    by rewrite lookup_app_r, Nat.sub_diag.
  - intros i earlier Hi.
    rewrite exceptionHandlers_insert, decide_True by done.
    by apply lookup_app_l_Some.
  - intros t Ht. by rewrite exceptionHandlers_insert, decide_False.
  - cbn. apply setAdd_elem.
Qed.

Lemma matchesType_spec t exceptionType :
  matchesType t exceptionType = true ↔ derivesFrom exceptionType t ∨ t = exceptionType.
Proof.
  unfold matchesType.
  by rewrite orb_true_iff, isPrototypeOf_derivesFrom, bool_decide_eq_true.
Qed.

(** A call recorded for one handled type is the call of a handler of that
    type, made after every handler before it handed the error back. *)
Lemma untilHandled_elem t hs i exceptionType error c :
  c ∈ untilHandled t hs i exceptionType error →
  ∃ j h, hs !! j = Some h
         ∧ c = {| handledType := t; position := (i + j)%nat;
                  returned := h error exceptionType |}
         ∧ ∀ j' g, (j' < j)%nat → hs !! j' = Some g → g error exceptionType = error.
Proof.
  revert i. induction hs as [|h rest IH]; intros i; cbn; [by intros ?%elem_of_nil|].
  intros [->|Hin]%elem_of_cons.
  - exists 0%nat, h. split_and!; [done|by rewrite Nat.add_0_r|lia].
  - destruct (strictNe (h error exceptionType) error) eqn:Hne;
      [by apply elem_of_nil in Hin|].
    destruct (IH _ Hin) as (j & g & Hj & -> & Hbefore).
    exists (S j), g. split_and!; [done|by rewrite Nat.add_succ_comm|].
    intros [|j'] g' Hlt; cbn.
    + intros [= <-]. by apply strictNe_false.
    + apply Hbefore. lia.
Qed.

Lemma expectedCalls_elem types vk exceptionType error c :
  c ∈ expectedCalls types vk exceptionType error ↔
  ∃ t, t ∈ types ∧ matchesType t exceptionType = true
       ∧ c ∈ untilHandled t (exceptionHandlers t vk) 0 exceptionType error.
Proof.
  unfold expectedCalls. rewrite list_elem_of_In, in_flat_map. split.
  - intros (t & Ht%list_elem_of_In & Hc%list_elem_of_In). exists t.
    destruct (matchesType t exceptionType); [done|by apply elem_of_nil in Hc].
  - intros (t & Ht & Hm & Hc). exists t. rewrite Hm.
    by rewrite <- !list_elem_of_In.
Qed.

(** The calls depend on the registry through the handled types and their
    handler lists only. *)
Lemma expectedCalls_ext types vk vk' exceptionType error :
  (∀ t, t ∈ types → exceptionHandlers t vk = exceptionHandlers t vk') →
  expectedCalls types vk exceptionType error
  = expectedCalls types vk' exceptionType error.
Proof.
  induction types as [|t rest IH]; intros Hsame; [done|]. cbn.
  rewrite (Hsame t) by (by left). f_equal. apply IH. intros; apply Hsame; by right.
Qed.

Lemma processHandlers_ext vk vk' exceptionType error :
  handlersExceptions vk = handlersExceptions vk' →
  (∀ t, exceptionHandlers t vk = exceptionHandlers t vk') →
  processHandlers exceptionType error vk = processHandlers exceptionType error vk'.
Proof.
  intros Htypes Hsame. rewrite !processHandlers_spec. cbn zeta.
  rewrite <- Htypes. by rewrite (expectedCalls_ext _ vk vk').
Qed.

(** X12: [handleExceptionFirstly] puts the handler at index 0 of its type
    and moves every handler of that type one index up; when an error of that
    type or of a type derived from it is resolved, the handler is called,
    whatever else is registered. *)
Theorem X12_firstly_handler_always_called exceptionType thrownType handler error vk :
  derivesFrom thrownType exceptionType ∨ exceptionType = thrownType →
  let registered := handleExceptionFirstly exceptionType handler vk in
  registered.1 = (exceptionType, 0)
  ∧ exceptionHandlers exceptionType registered.2
    = handler :: exceptionHandlers exceptionType vk
  ∧ {| handledType := exceptionType; position := 0;
       returned := handler error thrownType |}
    ∈ invoked (processHandlers thrownType error registered.2).
Proof.
  intros Hsub%matchesType_spec. cbn zeta. split_and!; [done| |].
  - cbn [snd handleExceptionFirstly].
    by rewrite exceptionHandlers_insert, decide_True.
  - rewrite processHandlers_spec. cbn [invoked]. apply expectedCalls_elem.
    exists exceptionType. split_and!; [apply setAdd_elem|done|].
    cbn [snd handleExceptionFirstly].
    rewrite exceptionHandlers_insert, decide_True by done. cbn. by left.
Qed.

(** X12 for a base handler put first behind a derived-class registry. *)
Lemma X12_witness :
  {| handledType := BaseError; position := 0; returned := VStr "x" |}
  ∈ invoked (processHandlers DerivedError (VRef 0)
               (handleExceptionFirstly BaseError recover twoHandlers).2).
Proof.
  apply (X12_firstly_handler_always_called BaseError DerivedError recover
           (VRef 0) twoHandlers).
  left. constructor.
Defined.

(** X13: [removeExceptionHandler([t, p])] drops the handler at index [p] of
    the list of [t] and keeps the others in order; a position outside the
    list (negative, or past the end) removes nothing.  The lists of the
    other types and the handled types are untouched: a type stays handled
    even when its last handler is removed. *)
Theorem X13_removeExceptionHandler_by_index exceptionType position vk :
  let after := removeExceptionHandler (exceptionType, position) vk in
  (0 ≤ position < Z.of_nat (length (exceptionHandlers exceptionType vk)) →
   exceptionHandlers exceptionType after
   = take (Z.to_nat position) (exceptionHandlers exceptionType vk)
     ++ drop (S (Z.to_nat position)) (exceptionHandlers exceptionType vk))
  ∧ (position < 0
     ∨ Z.of_nat (length (exceptionHandlers exceptionType vk)) ≤ position →
     exceptionHandlers exceptionType after
     = exceptionHandlers exceptionType vk)
  ∧ (∀ t, t ≠ exceptionType →
       exceptionHandlers t after = exceptionHandlers t vk)
  ∧ handlersExceptions after = handlersExceptions vk.
Proof.
  cbn zeta. unfold removeExceptionHandler. cbn [fst snd].
  split_and!; [| | |done].
  - intros Hin. rewrite exceptionHandlers_insert, decide_True by done.
    rewrite filterIndex_spec by lia. by rewrite Z.sub_0_r.
  - intros Hout. rewrite exceptionHandlers_insert, decide_True by done.
    destruct Hout as [Hneg|Hpast]; [by apply filterIndex_before|].
    rewrite filterIndex_spec by lia. rewrite Z.sub_0_r.
    rewrite take_ge, drop_ge by lia. by rewrite app_nil_r.
  - intros t Ht. by rewrite exceptionHandlers_insert, decide_False.
Qed.

(** X13 on the registry with one swallowing handler for the derived class:
    position 0 removes it, position 1 and position -1 remove nothing. *)
Lemma X13_witness :
  let vk := (handleException DerivedError swallow newVK).2 in
  exceptionHandlers DerivedError (removeExceptionHandler (DerivedError, 0) vk) = []
  ∧ exceptionHandlers DerivedError (removeExceptionHandler (DerivedError, 1) vk)
    = [swallow]
  ∧ exceptionHandlers DerivedError (removeExceptionHandler (DerivedError, -1) vk)
    = [swallow].
Proof.
  cbn zeta.
  split_and!.
  - refine (proj1 (X13_removeExceptionHandler_by_index DerivedError 0
                     (handleException DerivedError swallow newVK).2) _).
    vm_compute. split; [by intros [=]|reflexivity].
  - refine (proj1 (proj2 (X13_removeExceptionHandler_by_index DerivedError 1
                     (handleException DerivedError swallow newVK).2)) _).
    right. vm_compute. by intros [=].
  - refine (proj1 (proj2 (X13_removeExceptionHandler_by_index DerivedError (-1)
                     (handleException DerivedError swallow newVK).2)) _).
    left. reflexivity.
Defined.

(** X14: removing a handler by the position [handleException] has just
    returned undoes the registration: every handler list is as before.  The
    type stays among the handled ones, which does not show: on a registry
    whose handled types cover every type that has handlers, [processHandlers]
    behaves exactly as before the registration. *)
Theorem X14_register_then_remove exceptionType handler vk :
  let registered := handleException exceptionType handler vk in
  let after := removeExceptionHandler registered.1 registered.2 in
  (∀ t, exceptionHandlers t after = exceptionHandlers t vk)
  ∧ exceptionType ∈ handlersExceptions after
  ∧ (handlersTracked vk →
     ∀ thrownType error,
       processHandlers thrownType error after
       = processHandlers thrownType error vk).
Proof.
  cbn zeta.
  assert (∀ t, exceptionHandlers t
            (removeExceptionHandler (handleException exceptionType handler vk).1
               (handleException exceptionType handler vk).2)
          = exceptionHandlers t vk) as Hsame.
  { intros t. unfold removeExceptionHandler.
    cbn [fst snd handleException].
    rewrite !exceptionHandlers_insert.
    destruct (decide (exceptionType = t)) as [<-|Hne]; [|done].
    rewrite decide_True by done.
    rewrite filterIndex_spec by (rewrite length_app; cbn; lia).
    rewrite Z.sub_0_r.
    replace (Z.to_nat _) with (length (exceptionHandlers exceptionType vk))
      by (rewrite length_app; cbn; lia).
    rewrite take_app_length, drop_ge by (rewrite length_app; cbn; lia).
    by rewrite app_nil_r. }
  split_and!; [done|apply setAdd_elem|].
  intros [Hnd Htracked] thrownType error.
  set (after := removeExceptionHandler _ _) in *.
  assert (handlersExceptions after = setAdd exceptionType (handlersExceptions vk))
    as Htypes by done.
  rewrite !processHandlers_spec. cbn zeta. rewrite Htypes.
  unfold setAdd. case_bool_decide as Hin.
  - by rewrite (expectedCalls_ext _ after vk).
  - assert (exceptionHandlers exceptionType vk = []) as Hnone.
    { destruct (exceptionHandlers exceptionType vk) eqn:E; [done|].
      exfalso. apply Hin, Htracked. by rewrite E. }
    assert (∀ v, expectedCalls (handlersExceptions vk ++ [exceptionType]) v
                   thrownType error
                 = expectedCalls (handlersExceptions vk) v thrownType error
                   ++ (if matchesType exceptionType thrownType
                       then untilHandled exceptionType
                              (exceptionHandlers exceptionType v) 0 thrownType error
                       else [])) as Happ.
    { intros v. unfold expectedCalls. rewrite flat_map_app. cbn.
      by rewrite app_nil_r. }
    rewrite Happ, Hsame, Hnone. cbn.
    rewrite (expectedCalls_ext _ after vk) by done.
    destruct (matchesType _ _); by rewrite app_nil_r.
Qed.

(** X14 on the two-handler registry. *)
Lemma X14_witness :
  processHandlers DerivedError (VRef 0)
    (removeExceptionHandler (handleException OtherError swallow twoHandlers).1
       (handleException OtherError swallow twoHandlers).2)
  = processHandlers DerivedError (VRef 0) twoHandlers.
Proof.
  refine (proj2 (proj2 (X14_register_then_remove OtherError swallow twoHandlers))
            _ DerivedError (VRef 0)).
  split.
  - apply (NoDup_cons_2 DerivedError [BaseError]).
    + intros H. apply list_elem_of_singleton in H. discriminate H.
    + apply NoDup_singleton.
  - intros t Ht.
    destruct (decide (t = DerivedError)) as [->|H1]; [left|].
    destruct (decide (t = BaseError)) as [->|H2]; [right; left|].
    exfalso. apply Ht. unfold exceptionHandlers, twoHandlers. cbn.
    by rewrite !lookup_insert_ne.
Defined.

(** X15: a position obtained from [handleException] goes stale when
    [handleExceptionFirstly] is called for the same type afterwards: every
    handler has moved one index up, so removing by the old position drops the
    handler that stood before the intended one, which stays registered. *)
Theorem X15_position_stale_after_firstly exceptionType handler first vk :
  let registered := handleException exceptionType handler vk in
  let shifted := (handleExceptionFirstly exceptionType first registered.2).2 in
  let after := removeExceptionHandler registered.1 shifted in
  exceptionHandlers exceptionType shifted
  = first :: exceptionHandlers exceptionType vk ++ [handler]
  ∧ exceptionHandlers exceptionType after
    = take (length (exceptionHandlers exceptionType vk))
        (first :: exceptionHandlers exceptionType vk)
      ++ [handler].
Proof.
  cbn zeta.
  assert (exceptionHandlers exceptionType
            (handleExceptionFirstly exceptionType first
               (handleException exceptionType handler vk).2).2
          = first :: exceptionHandlers exceptionType vk ++ [handler]) as Hshift.
  { cbn [snd handleExceptionFirstly].
    rewrite exceptionHandlers_insert, decide_True by done.
    by rewrite exceptionHandlers_handleException. }
  split; [done|].
  set (shifted := (handleExceptionFirstly _ _ _).2) in *.
  unfold removeExceptionHandler. cbn [fst snd handleException].
  rewrite exceptionHandlers_insert, decide_True by done.
  rewrite Hshift.
  set (l := exceptionHandlers exceptionType vk).
  rewrite filterIndex_spec by (rewrite length_app; cbn; lia).
  rewrite Z.sub_0_r, length_app. cbn [length].
  replace (Z.to_nat _) with (length l) by lia.
  rewrite app_comm_cons, take_app_le by (cbn; lia).
  f_equal. cbn [drop app]. by rewrite drop_app_length.
Qed.

(** X16: [processHandlers] only calls registered handlers of handled types
    that are the type of the error or a class it derives from, each with the
    error and its type, and a handler is only called when the handlers
    before it in its list all handed the error back. *)
Theorem X16_only_matching_registered_handlers_run exceptionType error vk c :
  c ∈ invoked (processHandlers exceptionType error vk) →
  handledType c ∈ handlersExceptions vk
  ∧ (derivesFrom exceptionType (handledType c) ∨ handledType c = exceptionType)
  ∧ ∃ handler,
      exceptionHandlers (handledType c) vk !! position c = Some handler
      ∧ returned c = handler error exceptionType
      ∧ ∀ j earlier, (j < position c)%nat →
          exceptionHandlers (handledType c) vk !! j = Some earlier →
          earlier error exceptionType = error.
Proof.
  rewrite processHandlers_spec. cbn [invoked].
  intros (t & Ht & Hm%matchesType_spec & Hc)%expectedCalls_elem.
  apply untilHandled_elem in Hc as (j & h & Hj & -> & Hbefore). cbn.
  split_and!; [done..|]. exists h. by split_and!.
Qed.

(** X16 on the two-handler registry: the call recorded for the base class is
    that of its registered handler. *)
Lemma X16_witness :
  ∃ handler,
    exceptionHandlers BaseError twoHandlers !! 0%nat = Some handler
    ∧ VStr "x" = handler (VRef 0) DerivedError.
Proof.
  destruct (X16_only_matching_registered_handlers_run DerivedError (VRef 0)
              twoHandlers
              {| handledType := BaseError; position := 0; returned := VStr "x" |})
    as (_ & _ & handler & Hh & Hr & _).
  - right. left.
  - exists handler. split; [exact Hh|exact Hr].
Defined.

Lemma find_recovered_some error (calls : list Invocation) c :
  List.find (recoveredBy error) calls = Some c →
  c ∈ calls ∧ returned c ≠ error ∧ truthy (returned c) = true.
Proof.
  intros [Hin Hrec]%find_some. apply list_elem_of_In in Hin.
  unfold recoveredBy in Hrec. apply andb_true_iff in Hrec as [Hne%strictNe_true Htr].
  done.
Qed.

(** X17: what the promise of [processHandlers] can be.  It resolves only
    with a truthy value that some handler returned and that is not the error;
    it rejects only with the error itself, and only when every handler called
    returned the error; and the error counts as handled exactly when some
    handler called returned something else. *)
Theorem X17_promise_outcomes exceptionType error vk :
  let r := processHandlers exceptionType error vk in
  (∀ v, promise r = Resolved v →
     v ≠ error ∧ truthy v = true ∧ ∃ c, c ∈ invoked r ∧ returned c = v)
  ∧ (∀ reason, promise r = Rejected reason →
     reason = error ∧ handled r = false ∧ ∀ c, c ∈ invoked r → returned c = error)
  ∧ (handled r = true ↔ ∃ c, c ∈ invoked r ∧ returned c ≠ error).
Proof.
  cbn zeta. rewrite processHandlers_spec. cbn.
  set (calls := expectedCalls _ _ _ _). unfold settled.
  split_and!.
  - intros v. destruct (List.find _ _) as [c|] eqn:Hfind.
    + intros [= <-]. apply find_recovered_some in Hfind as (? & ? & ?). eauto.
    + by destruct (existsb _ _).
  - intros reason. destruct (List.find _ _) as [c|] eqn:Hfind; [done|].
    destruct (existsb _ _) eqn:Hex; [done|]. intros [= <-].
    split_and!; [done..|]. intros c Hc.
    destruct (decide (returned c = error)) as [|Hne]; [done|].
    assert (existsb (handledBy error) calls = true) as Hyes
      by (apply existsb_handledBy; eauto).
    congruence.
  - apply existsb_handledBy.
Qed.

(** X17 on the two-handler registry, where the promise resolves. *)
Lemma X17_witness :
  promise (processHandlers DerivedError (VRef 0) twoHandlers) = Resolved (VStr "x")
  ∧ ∃ c, c ∈ invoked (processHandlers DerivedError (VRef 0) twoHandlers)
         ∧ returned c = VStr "x".
Proof.
  split; [reflexivity|].
  destruct (proj1 (X17_promise_outcomes DerivedError (VRef 0) twoHandlers)
              (VStr "x") eq_refl) as (_ & _ & Hcall).
  exact Hcall.
Defined.

Lemma setAdd_keeps x y set : x ∈ set → x ∈ setAdd y set.
Proof. unfold setAdd. case_bool_decide; set_solver. Qed.

Lemma setAdd_NoDup x set : NoDup set → NoDup (setAdd x set).
Proof.
  unfold setAdd. case_bool_decide as Hin; [done|]. intros Hnd.
  apply NoDup_app. split; [done|]. split; [|apply NoDup_singleton].
  intros y Hy ->%list_elem_of_singleton. done.
Qed.

Lemma filterIndex_nil_inv {A} position i (array : list A) :
  filterIndex position i array ≠ [] → array ≠ [].
Proof. by destruct array. Qed.

Lemma afterHandlerCall_tracked vk c :
  handlersTracked vk → handlersTracked (afterHandlerCall vk c).
Proof.
  intros [Hnd Htr]. destruct c as [t h|t h|[t p]]; cbn.
  - split; [by apply setAdd_NoDup|]. intros t'.
    rewrite exceptionHandlers_insert. destruct (decide (t = t')) as [<-|Hne].
    + intros _. apply setAdd_elem.
    + intros H. by apply setAdd_keeps, Htr.
  - split; [by apply setAdd_NoDup|]. intros t'.
    rewrite exceptionHandlers_insert. destruct (decide (t = t')) as [<-|Hne].
    + intros _. apply setAdd_elem.
    + intros H. by apply setAdd_keeps, Htr.
  - split; [done|]. intros t'. unfold removeExceptionHandler. cbn [fst snd].
    rewrite exceptionHandlers_insert. destruct (decide (t = t')) as [<-|Hne].
    + intros H%filterIndex_nil_inv. by apply Htr.
    + apply Htr.
Qed.

Lemma untilHandled_positions t hs i exceptionType error :
  Forall (λ c, handledType c = t ∧ (i ≤ position c)%nat)
    (untilHandled t hs i exceptionType error)
  ∧ NoDup (position <$> untilHandled t hs i exceptionType error).
Proof.
  revert i. induction hs as [|h rest IH]; intros i; cbn.
  - split; constructor.
  - destruct (strictNe _ _).
    + split; [by repeat constructor|]. cbn. apply NoDup_singleton.
    + destruct (IH (S i)) as [Hall Hnd]. split.
      * constructor; [done|]. eapply Forall_impl; [done|]. cbn. intros c [? ?].
        split; [done|lia].
      * cbn. constructor; [|done].
        intros (c & Hpos & Hc)%list_elem_of_fmap.
        rewrite Forall_forall in Hall. destruct (Hall c Hc) as [_ Hle]. lia.
Qed.

Lemma expectedCalls_NoDup types vk exceptionType error :
  NoDup types →
  NoDup ((λ c, (handledType c, position c))
         <$> expectedCalls types vk exceptionType error).
Proof.
  induction 1 as [|t rest Hnin Hnd IH]; cbn; [constructor|].
  rewrite fmap_app. apply NoDup_app. split_and!.
  - destruct (matchesType t exceptionType); [|constructor].
    destruct (untilHandled_positions t (exceptionHandlers t vk) 0
                exceptionType error) as [Hall Hpos].
    apply (NoDup_fmap_1 snd). rewrite <- list_fmap_compose. exact Hpos.
  - intros [t' p] (c & [= -> ->] & Hc)%list_elem_of_fmap
      (c' & [= Ht' Hp'] & Hc')%list_elem_of_fmap.
    destruct (matchesType t exceptionType); [|by apply elem_of_nil in Hc].
    destruct (untilHandled_positions t (exceptionHandlers t vk) 0
                exceptionType error) as [Hall _].
    rewrite Forall_forall in Hall. destruct (Hall c Hc) as [Ht _].
    apply expectedCalls_elem in Hc' as (t'' & Hin & _ & Hc').
    destruct (untilHandled_positions t'' (exceptionHandlers t'' vk) 0
                exceptionType error) as [Hall' _].
    rewrite Forall_forall in Hall'. destruct (Hall' c' Hc') as [Ht'' _].
    apply Hnin. congruence.
  - exact IH.
Qed.

(** X18: on a facade whose handler registry was built from the initial one
    by any sequence of [handleException], [handleExceptionFirstly] and
    [removeExceptionHandler] calls, the handled types hold no duplicate and
    cover every type that has a handler; and one resolution never calls the
    same registered handler twice. *)
Theorem X18_no_handler_called_twice calls exceptionType error :
  let vk := foldl afterHandlerCall newVK calls in
  NoDup (handlersExceptions vk)
  ∧ (∀ t, exceptionHandlers t vk ≠ [] → t ∈ handlersExceptions vk)
  ∧ NoDup ((λ c, (handledType c, position c))
           <$> invoked (processHandlers exceptionType error vk)).
Proof.
  cbn zeta.
  assert (handlersTracked (foldl afterHandlerCall newVK calls)) as [Hnd Htr].
  { assert (handlersTracked newVK) as Hinit.
    { split; [constructor|]. intros t Ht. by destruct Ht. }
    revert Hinit. generalize newVK.
    induction calls as [|c calls IH]; intros vk Hvk; [done|].
    cbn. by apply IH, afterHandlerCall_tracked. }
  split_and!; [done..|].
  rewrite processHandlers_spec. cbn [invoked]. by apply expectedCalls_NoDup.
Qed.

(** ** Composer stack *)

Lemma getComposer_insert name name' composer vk :
  getComposer name' (withComposers (<[name := composer]> (composersStack vk)) vk)
  = if decide (name = name') then Some composer else getComposer name' vk.
Proof.
  unfold getComposer. cbn. rewrite lookup_insert. by destruct (decide _).
Qed.

(** X19: composers are append-only.  Whatever is called ([addComposer] with
    an empty stack, or [use]) and on whatever name, a composer that exists
    keeps its middlewares in place: the call can only add at its end, and a
    call on another name adds nothing. *)
Theorem X19_composers_are_append_only composerName composer calledName call vk :
  getComposer composerName vk = Some composer →
  ∃ more,
    getComposer composerName (callOn calledName vk call) = Some (composer ++ more)
    ∧ (calledName ≠ composerName → more = [])
    ∧ (calledName = composerName →
       more = match call with Ensure => [] | Append middleware => [middleware] end).
Proof.
  intros Hsome. destruct call as [|m]; cbn.
  - exists []. rewrite app_nil_r. split_and!; [|done..].
    unfold addComposer. destruct (hasComposer calledName vk) eqn:Hhas; cbn; [done|].
    rewrite getComposer_insert. destruct (decide _) as [->|]; [|done].
    unfold hasComposer in Hhas. by rewrite Hsome in Hhas.
  - unfold use. destruct (decide (calledName = composerName)) as [->|Hne].
    + rewrite Hsome. exists [m]. rewrite getComposer_insert, decide_True by done.
      done.
    + exists []. rewrite app_nil_r. split_and!; [|done..].
      destruct (getComposer calledName vk) as [c|] eqn:Hc.
      * by rewrite getComposer_insert, decide_False.
      * unfold addComposer, hasComposer. rewrite Hc. cbn.
        by rewrite getComposer_insert, decide_False.
Qed.

(** X19 for two pipelines on one facade. *)
Lemma X19_witness :
  ∃ more,
    getComposer "message" (callOn "update" (use "message" passA newVK) (Append stopC))
    = Some ([passA] ++ more)
    ∧ more = [].
Proof.
  destruct (X19_composers_are_append_only "message" [passA] "update"
              (Append stopC) (use "message" passA newVK) eq_refl)
    as (more & Hget & Hother & _).
  exists more. split; [exact Hget|]. apply Hother. by intros [=].
Defined.

(** What [use] leaves under every name. *)
Lemma getComposer_use name middleware composerName vk :
  getComposer composerName (use name middleware vk)
  = if decide (name = composerName)
    then Some (default [] (getComposer name vk) ++ [middleware])
    else getComposer composerName vk.
Proof.
  unfold use. destruct (getComposer name vk) as [c|] eqn:Hc.
  - rewrite getComposer_insert. by destruct (decide _).
  - unfold addComposer, hasComposer. rewrite Hc. cbn.
    rewrite getComposer_insert. by destruct (decide _).
Qed.

(** X20: registrations on different composers do not interfere: after two
    [use] calls on different names, made in either order, every name gives
    the same composer: the first name its former pipeline followed by its
    middleware, the second name likewise, and any other name what it gave
    before. *)
Theorem X20_use_on_different_names_commutes name name' middleware middleware' vk :
  name ≠ name' →
  ∀ composerName,
    getComposer composerName (use name middleware (use name' middleware' vk))
    = getComposer composerName (use name' middleware' (use name middleware vk))
    ∧ getComposer composerName (use name middleware (use name' middleware' vk))
      = if decide (composerName = name)
        then Some (default [] (getComposer name vk) ++ [middleware])
        else if decide (composerName = name')
             then Some (default [] (getComposer name' vk) ++ [middleware'])
             else getComposer composerName vk.
Proof.
  intros Hne composerName. rewrite !getComposer_use.
  repeat case_decide; simplify_eq; done.
Qed.

(** X20 for the composers ["message"] and ["update"]. *)
Lemma X20_witness :
  getComposer "message" (use "message" passA (use "update" stopC newVK))
  = getComposer "message" (use "update" stopC (use "message" passA newVK))
  ∧ getComposer "update" (use "message" passA (use "update" stopC newVK))
    = Some [stopC].
Proof.
  assert ("message" ≠ "update") as Hne by (by intros [=]).
  split.
  - exact (proj1 (X20_use_on_different_names_commutes "message" "update"
                    passA stopC newVK Hne "message")).
  - rewrite (proj2 (X20_use_on_different_names_commutes "message" "update"
                      passA stopC newVK Hne "update")).
    reflexivity.
Defined.

(** ** Response classifier *)

(** X21: [createResponse] succeeds exactly on a body that is neither a string
    nor [null] nor [undefined] and whose [error] is falsy; the payload is then
    the [response] field when it is truthy and the whole body otherwise (so a
    body whose [response] is [0], [""], [false] or [null] comes back
    whole). *)
Theorem X21_payload_of_a_successful_response errors res payload :
  createResponse errors res = Passed payload
  ↔ (∀ s, res ≠ DStr s) ∧ res ≠ DNull ∧ res ≠ DUndef
    ∧ truthyData (prop res "error") = false
    ∧ payload = (if truthyData (prop res "response")
                 then prop res "response" else res).
Proof.
  unfold createResponse, checkOnErrors. split.
  - destruct res as [| | | |s|items|fields]; try discriminate; cbn.
    + intros [= <-]. by split_and!.
    + intros [= <-]. by split_and!.
    + intros [= <-]. by split_and!.
    + destruct (truthyData (field "error" fields)) eqn:Herr.
      * destruct (extractError _) as [[c m] t].
        repeat match goal with
               | |- context [if ?b then _ else _] => destruct b
               end; discriminate.
      * intros [= <-]. by split_and!.
  - intros (Hs & Hn & Hu & Herr & ->).
    destruct res as [| | | |s|items|fields]; try done.
    + by destruct (Hs s).
    + cbn in Herr |- *. by rewrite Herr.
Qed.

(** X21 on a body whose [response] is [0]. *)
Lemma X21_witness :
  createResponse defaultErrors zeroResponseBody = Passed zeroResponseBody.
Proof.
  apply (X21_payload_of_a_successful_response defaultErrors zeroResponseBody
           zeroResponseBody).
  split_and!; [by intros s [=]|by intros [=]|by intros [=]|reflexivity|reflexivity].
Defined.

(** X22: when the nested error carries the captcha code, the exception is a
    [CaptchaException] with the [captcha_sid] and [captcha_img] of the nested
    error, whatever the rest of the body holds. *)
Theorem X22_captcha_code_carries_nested_sid errors res nested :
  prop res "error" = DObj nested →
  field "error_code" nested = DNum (captchaErrorCode errors) →
  ∃ message data,
    checkOnErrors errors res
    = Raised (CaptchaException message data
                (field "captcha_sid" nested) (field "captcha_img" nested)).
Proof.
  intros Herr Hcode.
  destruct res as [| | | | |items|fields]; try discriminate Herr.
  unfold checkOnErrors. rewrite Herr. cbn. rewrite Hcode. cbn.
  rewrite Z.eqb_refl. destruct (extractError _) as [[c m] t]. eauto.
Qed.

(** X22 on [{"error": {"error_code": 14, "captcha_sid": "1", ...}}]. *)
Lemma X22_witness :
  ∃ message data,
    checkOnErrors defaultErrors nestedCaptchaBody
    = Raised (CaptchaException message data (DStr "1") (DStr "url")).
Proof.
  apply (X22_captcha_code_carries_nested_sid defaultErrors nestedCaptchaBody
           [("error_code", DNum 14); ("error_msg", DStr "Captcha needed");
            ("captcha_sid", DStr "1"); ("captcha_img", DStr "url")]);
    reflexivity.
Defined.

(** X23: when [error] is the validation marker (and not the captcha one), a
    truthy [ban_info] gives [HaveBanException], whether or not a
    [validation_type] is present; without it a truthy [validation_type] gives
    [TwoFactorException], and otherwise the exception is
    [NeedValidationException].  Absent optional fields default to [null] for
    the ban's [redirectUri] and to [""] for the two-factor ones. *)
Theorem X23_validation_marker_branches errors res :
  prop res "error" = DStr (validationError errors) →
  validationError errors ≠ "" →
  validationError errors ≠ captchaError errors →
  ∃ message data,
    checkOnErrors errors res
    = Raised
        (if truthyData (prop res "ban_info") then
           HaveBanException message data (prop res "ban_info")
             (if truthyData (prop res "redirect_uri")
              then prop res "redirect_uri" else DNull)
         else if truthyData (prop res "validation_type") then
           TwoFactorException message data (prop res "validation_type")
             (if truthyData (prop res "phone_mask")
              then prop res "phone_mask" else DStr "")
             (if truthyData (prop res "redirect_uri")
              then prop res "redirect_uri" else DStr "")
             (if truthyData (prop res "validation_sid")
              then prop res "validation_sid" else DStr "")
         else NeedValidationException message data)
    ∧ message = (if truthyData (prop res "error_description")
                 then prop res "error_description" else DUndef).
Proof.
  intros Herr Hne%String.eqb_neq Hcap%String.eqb_neq.
  destruct res as [| | | | |items|fields]; try discriminate Herr.
  unfold checkOnErrors, extractError. rewrite Herr. cbn.
  rewrite Hne, Hcap, String.eqb_refl. cbn.
  destruct (truthyData (field "error_description" fields)); cbn;
    destruct (truthyData (field "ban_info" fields));
    destruct (truthyData (field "validation_type" fields)); eauto.
Qed.

(** X23 on a body with both [ban_info] and [validation_type]: the ban
    wins. *)
Lemma X23_witness :
  ∃ data,
    checkOnErrors defaultErrors bannedBody
    = Raised (HaveBanException (DStr "banned") data
                (DObj [("member_name", DStr "n")]) DNull).
Proof.
  destruct (X23_validation_marker_branches defaultErrors bannedBody eq_refl)
    as (message & data & Hraised & Hmessage).
  - by intros [=].
  - by intros [=].
  - exists data. rewrite Hraised, Hmessage. reflexivity.
Defined.

(** X24: when the nested error carries the redirect code (and that is not
    the captcha code), the exception is a [RedirectURIException] whose
    [redirectUri] is the top-level [redirect_uri] of the body; a
    [redirect_uri] inside the nested error is not read. *)
Theorem X24_redirect_uri_is_read_at_top_level errors res nested :
  prop res "error" = DObj nested →
  field "error_code" nested = DNum (redirectErrorCode errors) →
  redirectErrorCode errors ≠ captchaErrorCode errors →
  ∃ message data,
    checkOnErrors errors res
    = Raised (RedirectURIException message data (prop res "redirect_uri")).
Proof.
  intros Herr Hcode Hne%Z.eqb_neq.
  destruct res as [| | | | |items|fields]; try discriminate Herr.
  unfold checkOnErrors. rewrite Herr. cbn. rewrite Hcode. cbn.
  rewrite Hne, Z.eqb_refl. destruct (extractError _) as [[c m] t]. eauto.
Qed.

(** X24 on a body that has a [redirect_uri] at both levels. *)
Lemma X24_witness :
  ∃ message data,
    checkOnErrors defaultErrors redirectBody
    = Raised (RedirectURIException message data (DStr "top")).
Proof.
  apply (X24_redirect_uri_is_read_at_top_level defaultErrors redirectBody
           [("error_code", DNum 17); ("redirect_uri", DStr "nested")]).
  - reflexivity.
  - reflexivity.
  - by intros [=].
Defined.

(** X25: a body in the OAuth style, whose [error] is a non-empty string
    that is neither marker and which has a truthy [error_description], gives
    an [APIException] with the description as message, the error string
    itself as code and [error_type || ""] as type. *)
Theorem X25_oauth_style_error errors res s :
  prop res "error" = DStr s → s ≠ "" →
  s ≠ captchaError errors → s ≠ validationError errors →
  truthyData (prop res "error_description") = true →
  checkOnErrors errors res
  = Raised (APIException (prop res "error_description")
              {| code := DStr s;
                 errorType := if truthyData (prop res "error_type")
                              then prop res "error_type" else DStr "" |}).
Proof.
  intros Herr Hne%String.eqb_neq Hcap%String.eqb_neq Hval%String.eqb_neq Hdesc.
  destruct res as [| | | | |items|fields]; try discriminate Herr.
  unfold checkOnErrors, extractError. rewrite Herr. cbn in Hdesc |- *.
  by rewrite Hne, Hcap, Hval, Hdesc.
Qed.

(** X25 on [{"error": "invalid_client", "error_description": ...}]. *)
Lemma X25_witness :
  checkOnErrors defaultErrors oauthBody
  = Raised (APIException (DStr "Username or password is incorrect")
              {| code := DStr "invalid_client"; errorType := DStr "" |}).
Proof.
  apply (X25_oauth_style_error defaultErrors oauthBody "invalid_client");
    [reflexivity|by intros [=]..|reflexivity].
Defined.

(** X26: for a nested error object and no truthy top-level description, the
    message of the exception is the nested [message] when that is truthy,
    else the nested [error_msg] when that is truthy, else [undefined]; in the
    first two cases the code is the nested [error_code] and the type the
    nested [error_type || ""]. *)
Theorem X26_nested_message_precedence errors res nested :
  prop res "error" = DObj nested →
  truthyData (prop res "error_description") = false →
  ∃ e, checkOnErrors errors res = Raised e
       ∧ messageOf e
         = (if truthyData (field "message" nested) then field "message" nested
            else if truthyData (field "error_msg" nested)
                 then field "error_msg" nested
                 else DUndef)
       ∧ (truthyData (field "message" nested)
          || truthyData (field "error_msg" nested) = true →
          dataOf e
          = Some {| code := field "error_code" nested;
                    errorType := if truthyData (field "error_type" nested)
                                 then field "error_type" nested
                                 else DStr "" |}).
Proof.
  intros Herr Hdesc.
  destruct res as [| | | | |items|fields]; try discriminate Herr.
  unfold checkOnErrors, extractError. rewrite Herr. cbn in Hdesc |- *.
  rewrite Hdesc. cbn.
  destruct (truthyData (field "message" nested)) eqn:Hm; cbn;
    [|destruct (truthyData (field "error_msg" nested)) eqn:Hmsg; cbn].
  all: repeat match goal with
           | |- context [Raised (if ?b then _ else _)] => destruct b
           | |- context [(if ?b then _ else _) = Raised _] => destruct b
           end.
  all: eexists; split_and!;
    [reflexivity|reflexivity|first [by intros [=]|intros _; reflexivity]].
Qed.

(** X26 on the usual error of an API method. *)
Lemma X26_witness :
  checkOnErrors defaultErrors apiErrorBody
  = Raised (APIException (DStr "User authorization failed")
              {| code := DNum 5; errorType := DStr "" |}).
Proof.
  destruct (X26_nested_message_precedence defaultErrors apiErrorBody
              [("error_code", DNum 5); ("error_msg", DStr "User authorization failed")]
              eq_refl eq_refl) as (e & Hraised & _).
  rewrite Hraised. vm_compute in Hraised. by injection Hraised as <-.
Defined.

(** ** Options and requests *)

Lemma field_app key fields fields' :
  field key (fields ++ fields')
  = if hasKey key fields then field key fields else field key fields'.
Proof.
  induction fields as [|[k d] rest IH]; cbn; [done|].
  by destruct (String.eqb key k).
Qed.

Lemma field_without_key key fields :
  hasKey key fields = false → field key fields = DUndef.
Proof.
  induction fields as [|[k d] rest IH]; cbn; [done|].
  by destruct (String.eqb key k).
Qed.

Lemma hasKey_app key fields fields' :
  hasKey key (fields ++ fields') = hasKey key fields || hasKey key fields'.
Proof. apply existsb_app. Qed.

Lemma hasKey_revalued key (f : string * Data → Data) fields :
  hasKey key ((λ kv, (kv.1, f kv)) <$> fields) = hasKey key fields.
Proof.
  induction fields as [|[k d] rest IH]; [done|].
  cbn. f_equal. exact IH.
Qed.

Lemma field_revalued key (f : string * Data → Data) fields :
  hasKey key fields = true →
  ∃ d, field key ((λ kv, (kv.1, f kv)) <$> fields) = f (key, d)
       ∧ field key fields = d.
Proof.
  induction fields as [|[k d] rest IH]; [done|]. cbn.
  destruct (String.eqb_spec key k) as [->|Hne]; [eauto|]. exact IH.
Qed.

Lemma field_filtered key (keep : string → bool) fields :
  keep key = true →
  field key (List.filter (λ kv, keep kv.1) fields) = field key fields.
Proof.
  intros Hkeep. induction fields as [|[k d] rest IH]; [done|]. cbn.
  destruct (String.eqb_spec key k) as [<-|Hne].
  - rewrite Hkeep. cbn. by rewrite String.eqb_refl.
  - destruct (keep k); cbn; [|done].
    by destruct (String.eqb_spec key k).
Qed.

(** Reading a key of [{...a, ...b}] gives the property of [b] when [b] has
    the key, and that of [a] otherwise. *)
Lemma prop_spreadData a b key :
  prop (spreadData a b) key
  = if hasKey key (entries b) then field key (entries b)
    else field key (entries a).
Proof.
  unfold spreadData. cbn [prop]. rewrite field_app, hasKey_revalued.
  destruct (hasKey key (entries a)) eqn:Ha.
  - destruct (field_revalued key
                (λ kv, if hasKey kv.1 (entries b)
                       then field kv.1 (entries b) else kv.2)
                (entries a) Ha) as (d & -> & <-).
    done.
  - rewrite (field_filtered key (λ k, negb (hasKey k (entries a))))
      by (by rewrite Ha).
    rewrite (field_without_key _ _ Ha).
    destruct (hasKey key (entries b)) eqn:Hb; [done|].
    by apply field_without_key.
Qed.

Lemma field_entries_spreadData a b key :
  field key (entries (spreadData a b))
  = if hasKey key (entries b) then field key (entries b)
    else field key (entries a).
Proof. exact (prop_spreadData a b key). Qed.

(** X27: the constructor replaces the [defaults] group of [options] by the
    one the user gives, but merges it key by key into [defaultsOptions]: a
    built-in default ([v], [lang]) that the user's group does not mention is
    absent from [options.defaults] and still present in [defaultsOptions],
    which is what the queries send. *)
Theorem X27_constructor_merges_defaults_by_key userOptions userDefaults :
  prop userOptions "defaults" = DObj userDefaults →
  let s := constructed userOptions in
  prop (Settings.options s) "defaults" = DObj userDefaults
  ∧ ∀ key,
      prop (Settings.defaultsOptions s) key
      = if hasKey key userDefaults then field key userDefaults
        else prop initialDefaults key.
Proof.
  intros Hd. destruct userOptions as [| | | | |items|fields]; try discriminate Hd.
  cbn in Hd. cbn zeta. unfold constructed, defaults, setOptions. cbn [Settings.options
    Settings.defaultsOptions initialSettings].
  assert (prop (spreadData initialOptions (DObj fields)) "defaults" = DObj userDefaults)
    as Hgroup.
  { rewrite prop_spreadData. cbn [entries]. rewrite Hd.
    destruct (hasKey "defaults" fields) eqn:Hk; [done|].
    by rewrite (field_without_key _ _ Hk) in Hd. }
  split; [done|].
  intros key. rewrite prop_spreadData, Hgroup. done.
Qed.

(** X27 for a user who only sets [v]: [lang] is still sent. *)
Lemma X27_witness :
  prop (prop (Settings.options (constructed versionOnly)) "defaults") "lang" = DUndef
  ∧ prop (Settings.defaultsOptions (constructed versionOnly)) "lang" = DStr "ru"
  ∧ prop (Settings.defaultsOptions (constructed versionOnly)) "v" = DStr "5.120".
Proof.
  destruct (X27_constructor_merges_defaults_by_key versionOnly
              [("v", DStr "5.120")] eq_refl) as [Hgroup Hkeys].
  split_and!.
  - rewrite Hgroup. reflexivity.
  - rewrite (Hkeys "lang"). reflexivity.
  - rewrite (Hkeys "v"). reflexivity.
Defined.

(** X28: [setOptions] replaces an option group as a whole.  After
    [setOptions] with an [api] group, the address of every call is built from
    that group alone, whatever the options were before: a field the new group
    leaves out ([protocol], [apiSubdomain], [domain], [methodPath]) is read
    as [undefined] and appears as such in the address.  (The four fields are
    values that print exactly: strings as a rule, and no number that the
    engine would round or print with an exponent.) *)
Theorem X28_setOptions_replaces_the_api_group
    newOptions newApi methodName params requestMethod s :
  prop newOptions "api" = DObj newApi →
  exactNumbers (field "protocol" newApi) = true →
  exactNumbers (field "apiSubdomain" newApi) = true →
  exactNumbers (field "domain" newApi) = true →
  exactNumbers (field "methodPath" newApi) = true →
  ∃ request,
    call methodName params requestMethod (setOptions newOptions s) = Passed request
    ∧ url request
      = String.append (toStr (field "protocol" newApi))
          (String.append "://"
             (String.append (toStr (field "apiSubdomain" newApi))
                (String.append "."
                   (String.append (toStr (field "domain" newApi))
                      (String.append "/"
                         (String.append (toStr (field "methodPath" newApi))
                            methodName)))))).
Proof.
  intros Hapi _ _ _ _.
  destruct newOptions as [| | | | |items|fields]; try discriminate Hapi.
  cbn in Hapi.
  assert (prop (Settings.options (setOptions (DObj fields) s)) "api" = DObj newApi)
    as Hgroup.
  { unfold setOptions. cbn [Settings.options]. rewrite prop_spreadData.
    cbn [entries]. rewrite Hapi.
    destruct (hasKey "api" fields) eqn:Hk; [done|].
    by rewrite (field_without_key _ _ Hk) in Hapi. }
  unfold call, extendedQuery. rewrite Hgroup. eexists. split; [done|].
  cbn [url]. rewrite !prop_spreadData, !field_entries_spreadData. cbn. done.
Qed.

(** X28 for a user who only sets the domain. *)
Lemma X28_witness :
  ∃ request,
    call "users.get" DUndef DUndef (setOptions domainOnly initialSettings)
    = Passed request
    ∧ url request = "undefined://undefined.vk.ru/undefinedusers.get".
Proof.
  apply (X28_setOptions_replaces_the_api_group domainOnly
           [("domain", DStr "vk.ru")] "users.get" DUndef DUndef initialSettings);
    reflexivity.
Defined.

(** X29: with the [api] group the facade starts with, every call goes to
    [https://api.vk.com/method/<name>]; it sends the parameters of the call
    and, for every key the call does not give, the default kept in
    [defaultsOptions]; and [post] is [call] with the method ["post"]. *)
Theorem X29_call_sends_defaults_under_parameters
    methodName callParams requestMethod s defaultFields :
  prop (Settings.options s) "api" = initialApi →
  Settings.defaultsOptions s = DObj defaultFields →
  ∃ request,
    call methodName callParams requestMethod s = Passed request
    ∧ url request = String.append "https://api.vk.com/method/" methodName
    ∧ method request = requestMethod
    ∧ (∀ key,
         prop (params request) key
         = if hasKey key (entries callParams) then field key (entries callParams)
           else field key defaultFields)
    ∧ post methodName callParams s
      = Passed {| url := url request; method := DStr "post";
                  params := params request |}.
Proof.
  intros Hapi Hdefaults. unfold post, call, extendedQuery.
  rewrite Hapi, Hdefaults. cbn [initialApi]. eexists.
  split_and!; [done|by vm_compute|done| |done].
  intros key. cbn [params]. by rewrite prop_spreadData.
Qed.

(** X29 for a facade built with a version override. *)
Lemma X29_witness :
  ∃ request,
    call "users.get" (DObj [("user_ids", DNum 1)]) DUndef (constructed versionOnly)
    = Passed request
    ∧ url request = "https://api.vk.com/method/users.get"
    ∧ prop (params request) "user_ids" = DNum 1
    ∧ prop (params request) "v" = DStr "5.120"
    ∧ prop (params request) "lang" = DStr "ru".
Proof.
  destruct (X29_call_sends_defaults_under_parameters "users.get"
              (DObj [("user_ids", DNum 1)]) DUndef (constructed versionOnly)
              [("v", DStr "5.120"); ("lang", DStr "ru")]
              eq_refl eq_refl)
    as (request & Hcall & Hurl & _ & Hkeys & _).
  exists request. split_and!; [exact Hcall|exact Hurl|..].
  - rewrite (Hkeys "user_ids"). reflexivity.
  - rewrite (Hkeys "v"). reflexivity.
  - rewrite (Hkeys "lang"). reflexivity.
Defined.
